(** * mlx-engine: stop-string detection and the streaming generation loop

    A shallow embedding of [mlx_engine/stop_string_processor.py] and of the
    generator [create_generator] of [mlx_engine/generate.py], with the
    properties of the stop-condition state machine proved over it.

    Python values are modelled as follows.
    - A [str] is a list of characters over an arbitrary character type with
      decidable equality (Python compares code points); a token id is an
      integer ([Z]).
    - [None] is [None] of an option type; a status is the Python string it is
      in the source.
    - A raised exception is a value of [exn]; state that a method mutates is
      passed in and returned. *)

From Stdlib Require Import ZArith Lia List Permutation Ascii String.
From stdpp Require Import base tactics option list strings.

Local Open Scope Z_scope.

(** ** Python sequence primitives used by the sources *)

Module Py.
Section Sequences.
Context {A : Type} `{EqDecision A}.

(** [s[-i:]]: the slice from index [-i] to the end.  For [i = 0] the start
    index is [-0 = 0] (the whole sequence); for [i >= 1] it is
    [max (len s - i) 0]. *)
Definition slice_from_end (s : list A) (i : nat) : list A :=
  match i with
  | O => s
  | S _ => drop (length s - i) s
  end.

(** [s[:i]] for [i >= 0]. *)
Definition slice_to (s : list A) (i : nat) : list A := take i s.

(** [s.startswith(sub)]. *)
Definition startswith (s sub : list A) : bool :=
  bool_decide (take (length sub) s = sub).

(** [s.find(sub)], scanning from index [start]: the lowest index at which
    [sub] occurs in [s], or [-1]. *)
Fixpoint find_from (s sub : list A) (start : Z) : Z :=
  if startswith s sub then start
  else match s with
       | [] => -1
       | _ :: s' => find_from s' sub (start + 1)
       end.

Definition find (s sub : list A) : Z := find_from s sub 0.

(** [range(lo, hi)] for naturals. *)
Definition range (lo hi : nat) : list nat := seq lo (hi - lo).

(** [any(f(i) for i in l)]. *)
Definition any {B : Type} (f : B -> bool) (l : list B) : bool := existsb f l.

(** *** What the primitives are meant to compute *)

(** [sub] occurs in [s] at index [p]: [s[p : p + len(sub)] == sub]. *)
Definition occurs_at (sub s : list A) (p : nat) : Prop :=
  exists pre post, s = pre ++ sub ++ post /\ length pre = p.

(** [sub] occurs somewhere in [s] ([sub in s]). *)
Definition occurs (sub s : list A) : Prop := exists p, occurs_at sub s p.

(** [p] is the lowest index at which [sub] occurs in [s]. *)
Definition first_occurrence (sub s : list A) (p : nat) : Prop :=
  occurs_at sub s p /\ forall q, occurs_at sub s q -> (p <= q)%nat.

(** A non-empty suffix of [a] is a prefix of [b]. *)
Definition overlaps (a b : list A) : Prop :=
  exists w, w <> [] /\ w `suffix_of` a /\ w `prefix_of` b.

End Sequences.
End Py.

(** ** mlx_engine/stop_string_processor.py *)

Module StopStrings.
Import Py.

(** The exceptions the sources raise. *)
Inductive exn : Type :=
| ValueError (msg : string).

Section Model.
Context {Char : Type} `{EqDecision Char}.

(** A Python [str], and a token id. *)
Local Abbreviation str := (list Char).
Local Abbreviation token := Z.

(** The two named tuples of the module.  Both have a [status] and a
    [stop_string]; [StopStringProcessorResult] has [stop_tokens] as well.
    The annotation [Literal[...]] of [status] is not enforced at run time,
    so a status is any Python string. *)
Inductive result : Type :=
| StoppingCriteriaResult (status : string) (stop_string : option str)
| StopStringProcessorResult (status : string) (stop_string : option str)
    (stop_tokens : option (list token)).

Definition status (r : result) : string :=
  match r with
  | StoppingCriteriaResult s _ => s
  | StopStringProcessorResult s _ _ => s
  end.

Definition stop_string (r : result) : option str :=
  match r with
  | StoppingCriteriaResult _ s => s
  | StopStringProcessorResult _ s _ => s
  end.

(** [sequence_overlap(s1, s2)], lines 162-174. *)
Definition sequence_overlap {A : Type} `{EqDecision A} (s1 s2 : list A) : bool :=
  let max_overlap := Nat.min (length s1) (length s2) in
  any (fun i => bool_decide (slice_from_end s1 i = slice_to s2 i))
      (range 1 (max_overlap + 1)).

(** The dict [earliest_match] of [check_full_text_match].  Its key
    ["position"] is [float("inf")] ([None] here) until a match is recorded;
    its key ["stop_string"] is the field [matched]. *)
Record earliest : Type := Earliest {
  position : option Z;
  matched : option str
}.

(** [position < earliest_match["position"]], where the right side may be
    [float("inf")]. *)
Definition lt_position (p : Z) (e : earliest) : bool :=
  match position e with
  | None => true
  | Some q => bool_decide (p < q)
  end.

(** One iteration of the loop of [check_full_text_match], lines 130-133. *)
Definition scan_stop_string (string : str) (e : earliest) (stop : str) : earliest :=
  let pos := find string stop in
  if bool_decide (pos <> -1) && lt_position pos e
  then {| position := Some pos; matched := Some stop |}
  else e.

(** [check_full_text_match(string, stop_strings)], lines 123-139. *)
Definition check_full_text_match (string : str) (stop_strings : list str)
  : option result :=
  let earliest_match :=
    fold_left (scan_stop_string string) stop_strings
              {| position := None; matched := None |} in
  match matched earliest_match with
  | Some s => Some (StoppingCriteriaResult "full_stop" (Some s))
  | None => None
  end.

(** [check_partial_token_match], lines 142-149. *)
Fixpoint check_partial_token_match (token_sequence : list token)
    (stop_token_sequences : list (list token)) : option result :=
  match stop_token_sequences with
  | [] => None
  | stop_token_sequence :: rest =>
      if sequence_overlap token_sequence stop_token_sequence
      then Some (StoppingCriteriaResult "partial_match" None)
      else check_partial_token_match token_sequence rest
  end.

(** [check_partial_text_match], lines 152-159.  It builds a
    [StopStringProcessorResult], whose [stop_tokens] defaults to [None]. *)
Fixpoint check_partial_text_match (string : str) (stop_strings : list str)
  : option result :=
  match stop_strings with
  | [] => None
  | stop :: rest =>
      if sequence_overlap string stop
      then Some (StopStringProcessorResult "partial_match" None None)
      else check_partial_text_match string rest
  end.

(** [a or b] where [a] is [None] or a named tuple: a named tuple with at
    least one field is a non-empty tuple and so is true, [None] is false.
    The right operand is evaluated only when the left one is [None]. *)
Definition py_or (a : option result) (b : unit -> result) : result :=
  match a with
  | Some r => r
  | None => b tt
  end.

(** [stopping_criteria], lines 87-117. *)
Definition stopping_criteria (string : str) (token_sequence : list token)
    (stop_strings : list str) (stop_token_sequences : list (list token))
  : result :=
  py_or (check_full_text_match string stop_strings) (fun _ =>
  py_or (check_partial_token_match token_sequence stop_token_sequences) (fun _ =>
  py_or (check_partial_text_match string stop_strings) (fun _ =>
  StoppingCriteriaResult "no_match" None))).

(** The tokenizer handed to [StopStringProcessor.__init__]: an external
    collaborator, known here only through [encode] and [decode]. *)
Class Tokenizer : Type := {
  encode : str -> list token;
  decode : list token -> str
}.

(** The attributes of a [StopStringProcessor] object ([self.tokenizer] is
    the [Tokenizer] instance in scope). *)
Record StopStringProcessor : Type := {
  stop_strings : list str;
  stop_token_sequences : list (list token);
  token_id_buffer : list token
}.

(** [StopStringProcessor.__init__], lines 19-34. *)
Definition init `{Tokenizer} (stop_strings : list str) : StopStringProcessor :=
  {| stop_strings := stop_strings;
     stop_token_sequences := map encode stop_strings;
     token_id_buffer := [] |}.

Definition set_buffer (self : StopStringProcessor) (buffer : list token)
  : StopStringProcessor :=
  {| stop_strings := stop_strings self;
     stop_token_sequences := stop_token_sequences self;
     token_id_buffer := buffer |}.

(** The type of the module-level function [stopping_criteria], which
    [process_token] looks up by name when it runs. *)
Definition evaluator : Type :=
  str -> list token -> list str -> list (list token) -> result.

(** [StopStringProcessor.process_token], lines 36-79, over the evaluator
    bound to the name [stopping_criteria].  The outcome is the returned
    tuple or the raised exception, together with the object after the
    call.  On [full_stop] the returned [stop_tokens] is the buffer list
    itself and the buffer is kept; its value at the time of the return is
    what is recorded here.  On [no_match] the attribute is rebound to a new
    empty list. *)
Definition process_token_with `{Tokenizer} (criteria : evaluator)
    (self : StopStringProcessor) (tokens : token)
  : (exn + result) * StopStringProcessor :=
  match stop_strings self with
  | [] => (inr (StopStringProcessorResult "no_match" None None), self)
  | _ :: _ =>
      let self := set_buffer self (token_id_buffer self ++ [tokens]) in
      let result :=
        criteria (decode (token_id_buffer self)) (token_id_buffer self)
                 (stop_strings self) (stop_token_sequences self) in
      if String.eqb (status result) "no_match" then
        (inr (StopStringProcessorResult "no_match" None None),
         set_buffer self [])
      else if String.eqb (status result) "partial_match" then
        (inr (StopStringProcessorResult "partial_match" None None), self)
      else if String.eqb (status result) "full_stop" then
        (inr (StopStringProcessorResult "full_stop" (stop_string result)
                (Some (token_id_buffer self))), self)
      else
        (inl (ValueError ("Unknown StopProcessorStatus: " +:+ status result)),
         self)
  end.

(** [process_token] as the module defines it. *)
Definition process_token `{Tokenizer} (self : StopStringProcessor)
    (tokens : token) : (exn + result) * StopStringProcessor :=
  process_token_with stopping_criteria self tokens.

(** Feeding a stream of tokens to one processor, one [process_token] call
    per token, stopping at the first exception: the results returned so far,
    the exception if any, and the object at the end. *)
Fixpoint feed `{Tokenizer} (self : StopStringProcessor) (stream : list token)
  : list result * option exn * StopStringProcessor :=
  match stream with
  | [] => ([], None, self)
  | t :: rest =>
      match process_token self t with
      | (inl e, self') => ([], Some e, self')
      | (inr r, self') =>
          let '(rs, e, self'') := feed self' rest in
          (r :: rs, e, self'')
      end
  end.

End Model.
End StopStrings.

(** ** mlx_engine/generate.py *)

Module Generate.
Import StopStrings.

(** Line 15. *)
Definition MAX_TOP_LOGPROBS : Z := 10.

Section Model.
(** [Float] stands for Python's [float] and [Logprobs] for the array of
    log-probabilities that comes with each generated token; neither is
    inspected by the generator. *)
Context {Char : Type} `{EqDecision Char} {Float Logprobs : Type}.
(** [GenerationStopCondition] is imported from [mlx_engine.stop_processor];
    the generator only passes its values on. *)
Context {GenerationStopCondition : Type}.

(** [TokenLogprob(token, text, logprob)] of [mlx_engine.utils.top_logprobs],
    built positionally at line 202. *)
Record TokenLogprob : Type := {
  id : Z;
  token_text : list Char;
  logprob : Float
}.

(** [GenerationResult], lines 18-22. *)
Record GenerationResult : Type := {
  text : list Char;
  tokens : list TokenLogprob;
  top_logprobs : list (list TokenLogprob);
  stop_condition : option GenerationStopCondition
}.

(** What [mlx_lm.utils.stream_generate] yields per generated token; the
    loop reads its [token], [logprobs] and [text] (here [segment]). *)
Record GenerationResponse : Type := {
  token : Z;
  logprobs : Logprobs;
  segment : list Char
}.

(** The external collaborators of [create_generator]: the model kit with its
    tokenizer, log-probability summaries, and the token source.
    [stream_generate max_tokens] is the sequence of responses the source
    would produce for this run when asked for [max_tokens] tokens; the
    generator hands [max_tokens] over unchanged (line 193). *)
Class ModelKit : Type := {
  tokenize : list Char -> list Z;
  tokenizer_decode : Z -> list Char;
  logprob_at : Logprobs -> Z -> Float;
  summarize_top_logprobs : Logprobs -> Z -> list TokenLogprob;
  stream_generate : option Z -> list GenerationResponse
}.

(** Modelled from the spec: [mlx_engine.stop_processor] ([StopProcessor],
    its [process_token] and [finalize], and the result it returns) is not
    among the sources; only its calls at lines 185, 210, 213-214, 219 and
    234 are.  The generator reads [status] and [stop_reason] of a result.
    [finalize] returns the final text and the stop-condition descriptor; by
    sections 3 and 4.4 of the spec a run that ends always has a descriptor
    (a matched stop string, the end-of-sequence marker or the exhausted token
    budget), which is the law [finalize_stop_condition]. *)
Class StopProcessorKit : Type := {
  StopProcessor : Type;
  StopProcessorResult : Type;
  result_status : StopProcessorResult -> string;
  stop_reason : StopProcessorResult -> option string;
  new_stop_processor : list (list Z) -> StopProcessor;
  stop_process_token : StopProcessor -> Z -> StopProcessorResult * StopProcessor;
  finalize : StopProcessor -> list Char -> option StopProcessorResult ->
             list Char * option GenerationStopCondition;
  finalize_stop_condition : forall sp txt r, is_Some (snd (finalize sp txt r))
}.

Context `{ModelKit} `{StopProcessorKit}.

(** The keyword arguments of [create_generator] that the generator itself
    reads.  The others (sampling, repetition penalty, seed, JSON schema,
    images, progress callback) only travel to the collaborators above. *)
Record arguments : Type := {
  arg_stop_strings : option (list (list Char));
  arg_top_logprobs : option Z;
  arg_max_tokens : option Z
}.

(** The local variables of the generator that live across loop iterations,
    lines 177-187. *)
Record LoopState : Type := {
  token_buffer : list TokenLogprob;
  top_logprobs_buffer : list (list TokenLogprob);
  stop_processor : StopProcessor;
  stop_processor_result : option StopProcessorResult;
  text_buffer : list Char
}.

(** How an iteration of the [for] loop ends: [break], or on to the next
    item ([continue] or the end of the body). *)
Inductive control : Type := Break | Next.

(** [x != "eos_token"] for [x] a string or [None]. *)
Definition not_eos_token (x : option string) : bool :=
  match x with
  | Some s => negb (String.eqb s "eos_token")
  | None => true
  end.

(** The body of the loop, lines 196-232, for one response of the token
    source: the state after it, the result it yields if any, and how the
    iteration ends. *)
Definition loop_body (top_k : Z) (st : LoopState) (g : GenerationResponse)
  : LoopState * option GenerationResult * control :=
  let tok := token g in
  let token_buffer' :=
    token_buffer st ++
    [{| id := tok; token_text := tokenizer_decode tok;
        logprob := logprob_at (logprobs g) tok |}] in
  let top_logprobs_buffer' :=
    if negb (top_k =? 0)
    then top_logprobs_buffer st ++ [summarize_top_logprobs (logprobs g) top_k]
    else top_logprobs_buffer st in
  let '(r, sp) := stop_process_token (stop_processor st) tok in
  let text' := text_buffer st ++ segment g in
  let st' := {| token_buffer := token_buffer';
                top_logprobs_buffer := top_logprobs_buffer';
                stop_processor := sp;
                stop_processor_result := Some r;
                text_buffer := text' |} in
  if String.eqb (result_status r) "full_stop" && not_eos_token (stop_reason r)
  then (st', None, Break)
  else if String.eqb (result_status r) "partial_match"
  then (st', None, Next)
  else match text' with
       | _ :: _ =>
           ({| token_buffer := [];
               top_logprobs_buffer := [];
               stop_processor := sp;
               stop_processor_result := Some r;
               text_buffer := [] |},
            Some {| text := text';
                    tokens := token_buffer';
                    top_logprobs := top_logprobs_buffer';
                    stop_condition := None |},
            Next)
       | [] => (st', None, Next)
       end.

(** What a consumer of the generator can observe, in order: each request
    for the next item of the token source (with the response, or [None] when
    the source is exhausted), and each [GenerationResult] yielded. *)
Inductive event : Type :=
| NextToken (response : option GenerationResponse)
| Yield (r : GenerationResult).

Definition yield_event (y : option GenerationResult) : list event :=
  match y with
  | Some r => [Yield r]
  | None => []
  end.

(** The [for] loop, lines 189-232, over the responses of the source. *)
Fixpoint generation_loop (top_k : Z) (st : LoopState)
    (source : list GenerationResponse) : list event * LoopState :=
  match source with
  | [] => ([NextToken None], st)
  | g :: rest =>
      let '(st', y, c) := loop_body top_k st g in
      match c with
      | Break => (NextToken (Some g) :: yield_event y, st')
      | Next =>
          let '(evs, st'') := generation_loop top_k st' rest in
          (NextToken (Some g) :: yield_event y ++ evs, st'')
      end
  end.

(** A run of the generator driven to its end: the events in order, and the
    exception that ended it, if any. *)
Record outcome : Type := {
  events : list event;
  raised : option exn
}.

(** The buffers and the stop processor as set up at lines 176-187;
    [stop_strings or []] is the empty list for [None]. *)
Definition initial_state (args : arguments) : LoopState :=
  let stop_sequences := map tokenize (default [] (arg_stop_strings args)) in
  {| token_buffer := [];
     top_logprobs_buffer := [];
     stop_processor := new_stop_processor stop_sequences;
     stop_processor_result := None;
     text_buffer := [] |}.

(** [create_generator], lines 58-242.  The body of a generator function
    runs when its consumer asks for results; the calls before the validation
    of [top_logprobs] (lines 116-166) go to collaborators that yield no result
    and do not touch the token source, and are taken to return normally. *)
Definition create_generator (args : arguments) : outcome :=
  let top_k := default 0 (arg_top_logprobs args) in
  if bool_decide (top_k > MAX_TOP_LOGPROBS) then
    {| events := [];
       raised := Some (ValueError "top_logprobs must be less than or equal to 10") |}
  else
    let '(evs, st) :=
      generation_loop top_k (initial_state args)
                      (stream_generate (arg_max_tokens args)) in
    let '(final_text, generation_stop_condition) :=
      finalize (stop_processor st) (text_buffer st) (stop_processor_result st) in
    {| events := evs ++
         [Yield {| text := final_text;
                   tokens := token_buffer st;
                   top_logprobs := top_logprobs_buffer st;
                   stop_condition := generation_stop_condition |}];
       raised := None |}.

(** The results a run yields, and the requests it makes to the source. *)
Definition yielded (evs : list event) : list GenerationResult :=
  omap (fun e => match e with Yield r => Some r | NextToken _ => None end) evs.

Definition requests (evs : list event) : list (option GenerationResponse) :=
  omap (fun e => match e with NextToken r => Some r | Yield _ => None end) evs.

(** A run fails fast: it ends in an exception without having asked the token
    source for anything. *)
Definition fails_fast (o : outcome) : Prop :=
  is_Some (raised o) /\ requests (events o) = [].

End Model.
End Generate.

(** ** Sample collaborators and inputs

    Concrete tokenizers and token sources on which the statements below are
    exercised. *)

Module Samples.
Import StopStrings Generate.

(** A Python string literal as a list of characters. *)
Definition chars (s : string) : list ascii := list_ascii_of_string s.

(** A byte-level tokenizer: one token per character, its code. *)
#[export] Instance byte_tokenizer : Tokenizer (Char := ascii) := {|
  encode := map (fun c => Z.of_N (N_of_ascii c));
  decode := map (fun t => ascii_of_N (Z.to_N t))
|}.

(** A tokenizer for which the stop string "X" is the three tokens 7, 8, 9
    and shows as text only once all three are there; any other token decodes
    to "?". *)
Definition glyph_decode (l : list Z) : list ascii :=
  if bool_decide (Py.find l [7; 8; 9] <> -1) then chars "X"
  else if forallb (fun t => bool_decide (t ∈ [7; 8; 9])) l then []
  else chars "?".

Definition glyph_tokenizer : Tokenizer (Char := ascii) := {|
  encode := fun s => if bool_decide (s = chars "X") then [7; 8; 9] else [0];
  decode := glyph_decode
|}.

(** An evaluator that answers with a status outside the three known ones. *)
Definition confused_criteria : evaluator (Char := ascii) :=
  fun _ _ _ _ => StoppingCriteriaResult "maybe" None.

(** A sample model kit whose token source spells a fixed text, one
    character per token, and gives at most [max_tokens] responses.  It stands
    for no particular library; what the real token source does with a given
    count is not part of the sources. *)
Definition spelled (s : string) : list (GenerationResponse (Char := ascii) (Logprobs := unit)) :=
  map (fun c => {| token := Z.of_N (N_of_ascii c); logprobs := tt; segment := [c] |})
      (chars s).

#[export] Instance sample_kit : ModelKit (Char := ascii) (Float := Z) (Logprobs := unit) := {|
  tokenize := map (fun c => Z.of_N (N_of_ascii c));
  tokenizer_decode := fun t => [ascii_of_N (Z.to_N t)];
  logprob_at := fun _ _ => 0;
  summarize_top_logprobs := fun _ _ => [];
  stream_generate := fun max_tokens =>
    take (Z.to_nat (default 10000000 max_tokens)) (spelled "say stop now")
|}.

(** A stop processor over token sequences: a full stop when a stop sequence
    occurs in the pending tokens, a partial match when their end overlaps the
    start of one, no match (and an empty buffer) otherwise. *)
Definition sample_process_token (sp : list (list Z) * list Z) (t : Z)
  : (string * option string) * (list (list Z) * list Z) :=
  let buffer := sp.2 ++ [t] in
  if existsb (fun q => negb (Py.find buffer q =? -1)) sp.1
  then (("full_stop", Some "stop_string"), (sp.1, buffer))
  else if existsb (sequence_overlap buffer) sp.1
  then (("partial_match", None), (sp.1, buffer))
  else (("no_match", None), (sp.1, [])).

Definition sample_finalize (sp : list (list Z) * list Z) (txt : list ascii)
    (r : option (string * option string)) : list ascii * option string :=
  (txt,
   Some (match r with
         | Some (st, _) =>
             if String.eqb st "full_stop" then "stop_string" else "end_of_stream"
         | None => "end_of_stream"
         end)).

Lemma sample_finalize_stop_condition sp txt r :
  is_Some (snd (sample_finalize sp txt r)).
Proof. unfold sample_finalize. simpl. by eexists. Qed.

#[export] Instance sample_stop_processor
  : StopProcessorKit (Char := ascii) (GenerationStopCondition := string) := {|
  StopProcessor := list (list Z) * list Z;
  StopProcessorResult := string * option string;
  result_status := fst;
  stop_reason := snd;
  new_stop_processor := fun seqs => (seqs, []);
  stop_process_token := sample_process_token;
  finalize := sample_finalize;
  finalize_stop_condition := sample_finalize_stop_condition
|}.

(** Sample keyword arguments. *)
Definition stop_on_stop : arguments (Char := ascii) :=
  {| arg_stop_strings := Some [chars "stop"];
     arg_top_logprobs := None;
     arg_max_tokens := Some 100 |}.

(** The first token of the sample run ("s", the start of the stop string)
    is a partial match and is held back; the second ("a") resolves to no
    match and flushes both. *)
Definition after_s : LoopState :=
  fst (fst (loop_body 0 (initial_state stop_on_stop)
              {| token := 115; logprobs := tt; segment := chars "s" |})).

Definition zero_budget : arguments (Char := ascii) :=
  {| arg_stop_strings := Some [chars "stop"];
     arg_top_logprobs := Some 3;
     arg_max_tokens := Some 0 |}.

Definition negative_budget : arguments (Char := ascii) :=
  {| arg_stop_strings := None;
     arg_top_logprobs := None;
     arg_max_tokens := Some (-1) |}.

Definition too_many_logprobs : arguments (Char := ascii) :=
  {| arg_stop_strings := None;
     arg_top_logprobs := Some 11;
     arg_max_tokens := None |}.

End Samples.

(** ** Views of a run of the generation loop

    Notions used to state what a whole run does: which responses were taken
    from the token source, and the intermediate states of one iteration. *)

Module GenerateViews.
Import StopStrings Generate.

Section Views.
Context {Char Float Logprobs GenerationStopCondition : Type}.
Context `{!ModelKit (Char := Char) (Float := Float) (Logprobs := Logprobs)}.
Context `{!StopProcessorKit (Char := Char)
            (GenerationStopCondition := GenerationStopCondition)}.

Local Abbreviation Response :=
  (GenerationResponse (Char := Char) (Logprobs := Logprobs)).
Local Abbreviation Result :=
  (GenerationResult (Char := Char) (Float := Float)
                    (GenerationStopCondition := GenerationStopCondition)).
Local Abbreviation Event :=
  (event (Char := Char) (Float := Float) (Logprobs := Logprobs)
         (GenerationStopCondition := GenerationStopCondition)).
Local Abbreviation State := (LoopState (Char := Char) (Float := Float)).

(** The responses the loop obtained from the token source, in order. *)
Definition consumed (evs : list Event) : list Response :=
  omap (fun e => match e with
                 | NextToken (Some g) => Some g
                 | _ => None
                 end) evs.

(** The [TokenLogprob] appended for a response at lines 201-203. *)
Definition token_record (g : Response)
  : TokenLogprob (Char := Char) (Float := Float) :=
  {| id := token g; token_text := tokenizer_decode (token g);
     logprob := logprob_at (logprobs g) (token g) |}.

(** The test of lines 212-215: a full stop that is not the end-of-sequence
    token. *)
Definition ends_run (r : StopProcessorResult) : bool :=
  String.eqb (result_status r) "full_stop" && not_eos_token (stop_reason r).

(** The stop processor and its last result after it was given the tokens of
    the responses [gs], one call per response. *)
Definition stop_processor_run (sp : StopProcessor) (r : option StopProcessorResult)
    (gs : list Response) : StopProcessor * option StopProcessorResult :=
  foldl (fun acc g =>
           let '(v, sp') := stop_process_token (fst acc) (token g) in
           (sp', Some v))
        (sp, r) gs.

(** The state of an iteration after lines 196-211: the token recorded, its
    top-logprobs summarised when asked for, the stop processor consulted and
    the decoded text appended. *)
Definition accumulated (top_k : Z) (st : State) (g : Response) : State :=
  {| token_buffer := token_buffer st ++ [token_record g];
     top_logprobs_buffer :=
       if top_k =? 0 then top_logprobs_buffer st
       else top_logprobs_buffer st ++ [summarize_top_logprobs (logprobs g) top_k];
     stop_processor := snd (stop_process_token (stop_processor st) (token g));
     stop_processor_result :=
       Some (fst (stop_process_token (stop_processor st) (token g)));
     text_buffer := text_buffer st ++ segment g |}.

(** The result yielded at lines 224-229 from a state, and the state after
    lines 230-232. *)
Definition emitted (st : State) : Result :=
  {| text := text_buffer st;
     tokens := token_buffer st;
     top_logprobs := top_logprobs_buffer st;
     stop_condition := None |}.

Definition flushed (st : State) : State :=
  {| token_buffer := [];
     top_logprobs_buffer := [];
     stop_processor := stop_processor st;
     stop_processor_result := stop_processor_result st;
     text_buffer := [] |}.

(** The responses a loop starting with stop processor [sp] takes from the
    source [src]: all of them up to and including the first one whose
    verdict ends the run. *)
Fixpoint taken (sp : StopProcessor) (src : list Response) : list Response :=
  match src with
  | [] => []
  | g :: rest =>
      let '(v, sp') := stop_process_token sp (token g) in
      if ends_run v then [g] else g :: taken sp' rest
  end.

(** Whether some verdict along [src] ends the run. *)
Fixpoint stopped (sp : StopProcessor) (src : list Response) : bool :=
  match src with
  | [] => false
  | g :: rest =>
      let '(v, sp') := stop_process_token sp (token g) in
      if ends_run v then true else stopped sp' rest
  end.

(** The top-logprobs summaries asked for when [top_k] is not zero. *)
Definition summaries (top_k : Z) (gs : list Response)
  : list (list (TokenLogprob (Char := Char) (Float := Float))) :=
  if top_k =? 0 then []
  else (fun g => summarize_top_logprobs (logprobs g) top_k) <$> gs.

(** Per result: as many summaries as tokens when [top_k] is not zero, none
    otherwise. *)
Definition aligned (top_k : Z) (n_top n_tokens : nat) : Prop :=
  n_top = if top_k =? 0 then 0%nat else n_tokens.

(** The last result of a run, built at lines 234-242 from the state the
    loop ended in. *)
Definition final_result (st : State) : Result :=
  {| text := fst (finalize (stop_processor st) (text_buffer st)
                           (stop_processor_result st));
     tokens := token_buffer st;
     top_logprobs := top_logprobs_buffer st;
     stop_condition := snd (finalize (stop_processor st) (text_buffer st)
                                     (stop_processor_result st)) |}.

End Views.
End GenerateViews.

(** * Properties *)

(** ** Python's [find] and the overlap test *)

Module PyFacts.
Import Py.

Section Occurrences.
Context {A : Type} `{EqDecision A}.

Lemma startswith_prefix (s sub : list A) :
  startswith s sub = true <-> sub `prefix_of` s.
Proof.
  unfold startswith. rewrite bool_decide_eq_true. split.
  - intros E. exists (drop (length sub) s).
    rewrite <- (take_drop (length sub) s) at 1. by rewrite E.
  - intros [k ->]. apply take_app_length.
Qed.

Lemma occurs_at_0 (sub s : list A) : occurs_at sub s 0 <-> sub `prefix_of` s.
Proof.
  split.
  - intros (pre & post & -> & Hl). destruct pre; [|discriminate].
    now exists post.
  - intros [k ->]. now exists [], k.
Qed.

Lemma occurs_at_S (sub : list A) x s p :
  occurs_at sub (x :: s) (S p) <-> occurs_at sub s p.
Proof.
  split.
  - intros (pre & post & E & Hl). destruct pre as [|y pre]; [discriminate|].
    simpl in *. injection E as -> ->. injection Hl as <-. now exists pre, post.
  - intros (pre & post & -> & <-). now exists (x :: pre), post.
Qed.

Lemma occurs_at_nil (sub : list A) p : occurs_at sub [] p -> sub = [] /\ p = 0%nat.
Proof.
  intros (pre & post & E & <-). symmetry in E.
  apply app_eq_nil in E as [-> E]. apply app_eq_nil in E as [-> _]. done.
Qed.

Lemma occurs_at_bound (sub s : list A) p :
  occurs_at sub s p -> (p + length sub <= length s)%nat.
Proof.
  intros (pre & post & -> & <-). rewrite !length_app. lia.
Qed.

(** [find_from] returns [start] plus the lowest index of an occurrence, and
    [-1] exactly when there is none. *)
Lemma find_from_cases (s sub : list A) (start : Z) :
  (find_from s sub start = -1 /\ ~ occurs sub s) \/
  (exists p, find_from s sub start = start + Z.of_nat p /\ first_occurrence sub s p).
Proof.
  revert start. induction s as [|x s IH]; intros start; simpl.
  - destruct (startswith [] sub) eqn:E.
    + right. exists 0%nat. split; [lia|]. split; [|lia].
      apply occurs_at_0, startswith_prefix, E.
    + left. split; [done|]. intros [p Hp].
      apply occurs_at_nil in Hp as [-> _]. discriminate E.
  - destruct (startswith (x :: s) sub) eqn:E.
    + right. exists 0%nat. split; [lia|]. split; [|lia].
      apply occurs_at_0, startswith_prefix, E.
    + assert (N0 : ~ occurs_at sub (x :: s) 0).
      { rewrite occurs_at_0, <- startswith_prefix, E. discriminate. }
      destruct (IH (start + 1)) as [[-> Hno] | (p & -> & Hocc & Hmin)].
      * left. split; [done|]. intros [[|p] Hp]; [done|].
        apply Hno. exists p. by apply occurs_at_S in Hp.
      * right. exists (S p). split; [lia|]. split.
        -- by apply occurs_at_S.
        -- intros [|q] Hq; [done|]. apply occurs_at_S, Hmin in Hq. lia.
Qed.

Lemma find_not_found (s sub : list A) : find s sub = -1 <-> ~ occurs sub s.
Proof.
  unfold find.
  destruct (find_from_cases s sub 0) as [[E Hno] | (p & E & Hocc & _)].
  - tauto.
  - split; [lia|]. intros Hno. destruct Hno. by exists p.
Qed.

Lemma find_found (s sub : list A) (p : nat) :
  find s sub = Z.of_nat p <-> first_occurrence sub s p.
Proof.
  unfold find.
  destruct (find_from_cases s sub 0) as [[E Hno] | (p' & E & Hocc & Hmin)].
  - split; [lia|]. intros [Hp _]. destruct Hno. by exists p.
  - split.
    + intros E'. assert (p = p') as -> by lia. done.
    + intros [Hp Hm]. apply Hmin in Hp. apply Hm in Hocc. lia.
Qed.

Lemma find_range (s sub : list A) :
  find s sub = -1 \/ exists p, find s sub = Z.of_nat p.
Proof.
  unfold find.
  destruct (find_from_cases s sub 0) as [[E _] | (p & E & _)]; [by left|].
  right. exists p. lia.
Qed.

(** The suffix of length [i] and the prefix of length [i], as slices. *)
Lemma suffix_slice (a w : list A) (i : nat) :
  (1 <= i <= length a)%nat ->
  (w `suffix_of` a /\ length w = i) <-> slice_from_end a i = w.
Proof.
  intros Hi. unfold slice_from_end. destruct i as [|i]; [lia|]. split.
  - intros [[k ->] Hl]. rewrite length_app.
    replace (length k + length w - S i)%nat with (length k) by lia.
    apply drop_app_length.
  - intros <-. split.
    + exists (take (length a - S i) a). symmetry. apply take_drop.
    + rewrite length_drop. lia.
Qed.

Lemma prefix_slice (b w : list A) (i : nat) :
  (i <= length b)%nat ->
  (w `prefix_of` b /\ length w = i) <-> slice_to b i = w.
Proof.
  intros Hi. unfold slice_to. split.
  - intros [[k ->] <-]. apply take_app_length.
  - intros <-. split.
    + exists (drop i b). symmetry. apply take_drop.
    + by apply length_take_le.
Qed.

Lemma any_true {B : Type} (f : B -> bool) (l : list B) :
  any f l = true <-> exists x, x ∈ l /\ f x = true.
Proof.
  unfold any. rewrite existsb_exists.
  split; intros (x & Hx & Hf); exists x; split; try done;
    by apply list_elem_of_In.
Qed.

Lemma any_permutation {B : Type} (f : B -> bool) (l l' : list B) :
  Permutation l l' -> any f l = any f l'.
Proof.
  unfold any. induction 1 as [|x l l' _ IH|x y l|l l' l'' _ IH1 _ IH2]; simpl.
  - done.
  - by rewrite IH.
  - by destruct (f x), (f y).
  - congruence.
Qed.

Lemma elem_of_range (lo hi i : nat) : i ∈ range lo hi <-> (lo <= i < hi)%nat.
Proof. unfold range. rewrite list_elem_of_In, in_seq. lia. Qed.

End Occurrences.
End PyFacts.

(** ** The stop-criteria evaluator *)

Module StopStringsFacts.
Import Py PyFacts StopStrings.

Section Evaluator.
Context {Char : Type} `{EqDecision Char}.
Implicit Types (text stop : list Char) (stops : list (list Char)).

Lemma sequence_overlap_true {A : Type} `{EqDecision A} (a b : list A) :
  sequence_overlap a b = true <->
  exists i, (1 <= i <= Nat.min (length a) (length b))%nat /\
            slice_from_end a i = slice_to b i.
Proof.
  unfold sequence_overlap. rewrite any_true. split.
  - intros (i & Hi & E). apply elem_of_range in Hi.
    apply bool_decide_eq_true in E. exists i. split; [lia|done].
  - intros (i & Hi & E). exists i. split.
    + apply elem_of_range. lia.
    + by apply bool_decide_eq_true.
Qed.

Lemma sequence_overlap_overlaps {A : Type} `{EqDecision A} (a b : list A) :
  sequence_overlap a b = true <-> overlaps a b.
Proof.
  rewrite sequence_overlap_true. split.
  - intros (i & Hi & E). exists (slice_to b i). split; [|split].
    + intros Hn. apply (f_equal length) in Hn. unfold slice_to in Hn.
      rewrite length_take in Hn. simpl in Hn. lia.
    + apply (suffix_slice a _ i); [lia|done].
    + apply (prefix_slice b _ i); [lia|done].
  - intros (w & Hw & Hs & Hp). exists (length w).
    pose proof (suffix_length _ _ Hs). pose proof (prefix_length _ _ Hp).
    assert (length w <> 0)%nat by (destruct w; simpl; [done|lia]).
    split; [lia|].
    transitivity w.
    + apply suffix_slice; [lia|done].
    + symmetry. apply prefix_slice; [lia|done].
Qed.

(** The loop of [check_full_text_match] keeps the earliest occurrence among
    the stop strings scanned so far, and the first configured one among those
    that start there. *)
Lemma scan_invariant text stops :
  let e := fold_left (scan_stop_string text) stops
                     {| position := None; matched := None |} in
  (position e = None /\ matched e = None /\
   forall s, s ∈ stops -> ~ occurs s text)
  \/
  (exists (k : nat) s (p : nat),
      position e = Some (Z.of_nat p) /\ matched e = Some s /\
      stops !! k = Some s /\ first_occurrence s text p /\
      (forall s' q, s' ∈ stops -> occurs_at s' text q -> (p <= q)%nat) /\
      (forall (j : nat) s' q, (j < k)%nat -> stops !! j = Some s' ->
                      occurs_at s' text q -> (p < q)%nat)).
Proof.
  induction stops as [|x l IH] using rev_ind; cbn zeta in *.
  - left. repeat split. intros s Hs. by apply elem_of_nil in Hs.
  - rewrite fold_left_app. cbn [fold_left].
    set (e := fold_left (scan_stop_string text) l _) in *.
    change (fold_left (scan_stop_string text) l _) with e.
    destruct (find_range text x) as [Ex | [p' Ex]].
    + (* [x] does not occur: nothing changes *)
      assert (He : scan_stop_string text e x = e).
      { unfold scan_stop_string. by rewrite Ex. }
      rewrite He.
      assert (Hx : ~ occurs x text) by by apply find_not_found.
      destruct IH as [(Hp & Hm & Hno) | (k & s & p & Hp & Hm & Hk & Hf & Hmin & Htie)].
      * left. split; [done|]. split; [done|].
        intros s [Hs | Hs]%elem_of_app.
        -- by apply Hno.
        -- apply list_elem_of_singleton in Hs as ->. done.
      * right. exists k, s, p. split; [done|]. split; [done|].
        split; [|split; [done|split]].
        -- rewrite lookup_app_l; [done|]. by eapply lookup_lt_Some.
        -- intros s' q [Hs | Hs]%elem_of_app Hq; [by eapply Hmin|].
           apply list_elem_of_singleton in Hs as ->. destruct Hx. by exists q.
        -- intros j s' q Hj Hl Hq. apply (Htie j s' q); [done| |done].
           rewrite lookup_app_l in Hl; [done|].
           apply lookup_lt_Some in Hk. lia.
    + (* [x] first occurs at [p'] *)
      assert (Hx : first_occurrence x text p') by by apply find_found.
      assert (He : scan_stop_string text e x =
                   if lt_position (Z.of_nat p') e
                   then {| position := Some (Z.of_nat p'); matched := Some x |}
                   else e).
      { unfold scan_stop_string. rewrite Ex.
        by rewrite (bool_decide_eq_true_2 (Z.of_nat p' <> -1)) by lia. }
      rewrite He. clear He.
      assert (Hnew : forall (P : nat -> Prop),
                 (forall s' q, s' ∈ l -> occurs_at s' text q -> P q) ->
                 (forall q, (p' <= q)%nat -> P q) ->
                 forall s' q, s' ∈ l ++ [x] -> occurs_at s' text q -> P q).
      { intros P Hl Hq s' q [Hs | Hs]%elem_of_app Ho; [by eapply Hl|].
        apply list_elem_of_singleton in Hs as ->. apply Hq. by apply Hx. }
      destruct IH as [(Hp & Hm & Hno) | (k & s & p & Hp & Hm & Hk & Hf & Hmin & Htie)].
      * unfold lt_position. rewrite Hp. simpl.
        right. exists (length l), x, p'. split; [done|]. split; [done|].
        split; [by rewrite list_lookup_middle|]. split; [done|]. split.
        -- apply (Hnew (fun q => p' <= q)%nat); [|done].
           intros s' q Hs Hq. destruct (Hno s' Hs). by exists q.
        -- intros j s' q Hj Hl Hq. rewrite lookup_app_l in Hl by done.
           apply list_elem_of_lookup_2 in Hl. destruct (Hno s' Hl). by exists q.
      * unfold lt_position. rewrite Hp. case_bool_decide as Hlt; simpl.
        -- right. exists (length l), x, p'. split; [done|]. split; [done|].
           split; [by rewrite list_lookup_middle|]. split; [done|]. split.
           ++ apply (Hnew (fun q => p' <= q)%nat); [|done].
              intros s' q Hs Hq. pose proof (Hmin s' q Hs Hq). lia.
           ++ intros j s' q Hj Hl Hq. rewrite lookup_app_l in Hl by done.
              apply list_elem_of_lookup_2 in Hl.
              pose proof (Hmin s' q Hl Hq). lia.
        -- right. exists k, s, p. split; [done|]. split; [done|].
           split; [|split; [done|split]].
           ++ rewrite lookup_app_l; [done|]. by eapply lookup_lt_Some.
           ++ apply (Hnew (fun q => p <= q)%nat); [done|]. lia.
           ++ intros j s' q Hj Hl Hq. apply (Htie j s' q); [done| |done].
              rewrite lookup_app_l in Hl; [done|].
              apply lookup_lt_Some in Hk. lia.
Qed.

Lemma check_full_text_match_None text stops :
  check_full_text_match text stops = None <->
  forall s, s ∈ stops -> ~ occurs s text.
Proof.
  unfold check_full_text_match.
  destruct (scan_invariant text stops)
    as [(_ & -> & Hno) | (k & s & p & _ & -> & Hk & [Hocc _] & _)].
  - tauto.
  - split; [discriminate|]. intros Hno.
    apply list_elem_of_lookup_2 in Hk. destruct (Hno s Hk). by exists p.
Qed.

Lemma check_partial_token_match_cases (toks : list Z) (seqs : list (list Z)) :
  (check_partial_token_match (Char:=Char) toks seqs
     = Some (StoppingCriteriaResult "partial_match" None) /\
   exists q, q ∈ seqs /\ overlaps toks q)
  \/ (check_partial_token_match (Char:=Char) toks seqs = None /\
      ~ exists q, q ∈ seqs /\ overlaps toks q).
Proof.
  induction seqs as [|q seqs IH]; simpl.
  - right. split; [done|]. intros (q & Hq & _). by apply elem_of_nil in Hq.
  - destruct (sequence_overlap toks q) eqn:E.
    + left. split; [done|]. exists q. split; [left|].
      by apply sequence_overlap_overlaps.
    + destruct IH as [[-> (q' & Hq' & Ho)] | [-> Hno]].
      * left. split; [done|]. exists q'. split; [by right|done].
      * right. split; [done|]. intros (q' & Hq' & Ho).
        apply elem_of_cons in Hq' as [-> | Hq'].
        -- apply sequence_overlap_overlaps in Ho. congruence.
        -- apply Hno. by exists q'.
Qed.

Lemma check_partial_text_match_cases text stops :
  (check_partial_text_match text stops
     = Some (StopStringProcessorResult "partial_match" None None) /\
   exists s, s ∈ stops /\ overlaps text s)
  \/ (check_partial_text_match text stops = None /\
      ~ exists s, s ∈ stops /\ overlaps text s).
Proof.
  induction stops as [|s stops IH]; simpl.
  - right. split; [done|]. intros (s & Hs & _). by apply elem_of_nil in Hs.
  - destruct (sequence_overlap text s) eqn:E.
    + left. split; [done|]. exists s. split; [left|].
      by apply sequence_overlap_overlaps.
    + destruct IH as [[-> (s' & Hs' & Ho)] | [-> Hno]].
      * left. split; [done|]. exists s'. split; [by right|done].
      * right. split; [done|]. intros (s' & Hs' & Ho).
        apply elem_of_cons in Hs' as [-> | Hs'].
        -- apply sequence_overlap_overlaps in Ho. congruence.
        -- apply Hno. by exists s'.
Qed.

(** C7.  [sequence_overlap a b] is true exactly when, for some length [i]
    between 1 and [min (len a) (len b)], the suffix of [a] of length [i] is the
    prefix of [b] of length [i].  The function is pure, and testing the
    lengths in any other order gives the same boolean. *)
Theorem sequence_overlap_correct {A : Type} `{EqDecision A} (a b : list A) :
  (sequence_overlap a b = true <->
   exists (i : nat) (w : list A),
     (1 <= i <= Nat.min (length a) (length b))%nat /\ length w = i /\
     w `suffix_of` a /\ w `prefix_of` b)
  /\
  (forall order : list nat,
     Permutation order (range 1 (Nat.min (length a) (length b) + 1)) ->
     any (fun i => bool_decide (slice_from_end a i = slice_to b i)) order
     = sequence_overlap a b).
Proof.
  split.
  - rewrite sequence_overlap_true. split.
    + intros (i & Hi & E). exists i, (slice_to b i).
      split; [done|]. split; [|split].
      * unfold slice_to. apply length_take_le. lia.
      * apply (suffix_slice a _ i); [lia|done].
      * apply (prefix_slice b _ i); [lia|done].
    + intros (i & w & Hi & Hl & Hs & Hp). exists i. split; [done|].
      transitivity w.
      * apply suffix_slice; [lia|done].
      * symmetry. apply prefix_slice; [lia|done].
  - intros order Hperm. unfold sequence_overlap. by apply any_permutation.
Qed.

(** A full-text match is reported as soon as some stop string occurs. *)
Lemma check_full_text_match_Some text stops :
  (exists s, s ∈ stops /\ occurs s text) ->
  exists s, check_full_text_match text stops
            = Some (StoppingCriteriaResult "full_stop" (Some s)).
Proof.
  intros (s0 & Hs0 & Hocc).
  destruct (check_full_text_match text stops) as [r|] eqn:E.
  - unfold check_full_text_match in E.
    destruct (matched _) as [s|]; [|discriminate]. exists s. congruence.
  - pose proof (proj1 (check_full_text_match_None text stops) E) as N.
    by destruct (N s0 Hs0).
Qed.

(** C2.  When some configured stop string occurs in the text,
    [check_full_text_match] reports [full_stop] with the stop string [s]
    whose first occurrence [p] is the lowest index at which any configured
    stop string occurs; every stop string configured before [s] occurs only
    at higher indices, so among those starting at [p] the first configured
    one is carried. *)
Theorem check_full_text_match_earliest text stops :
  (exists s, s ∈ stops /\ occurs s text) ->
  exists (k : nat) s (p : nat),
    check_full_text_match text stops
      = Some (StoppingCriteriaResult "full_stop" (Some s)) /\
    stops !! k = Some s /\
    first_occurrence s text p /\
    (forall s' q, s' ∈ stops -> occurs_at s' text q -> (p <= q)%nat) /\
    (forall (j : nat) s' q, (j < k)%nat -> stops !! j = Some s' ->
                    occurs_at s' text q -> (p < q)%nat).
Proof.
  intros (s0 & Hs0 & Hocc). unfold check_full_text_match.
  destruct (scan_invariant text stops)
    as [(_ & _ & Hno) | (k & s & p & _ & Hm & Hk & Hf & Hmin & Htie)].
  - by destruct (Hno s0 Hs0).
  - exists k, s, p. by rewrite Hm.
Qed.

(** C1.  [stopping_criteria] applies its checks in priority order, the first
    applicable one deciding: the full-text result when some stop string
    occurs in the text; otherwise the partial-token result when the token
    sequence overlaps some stop token sequence; otherwise the partial-text
    result when the text overlaps some stop string; otherwise no-match. *)
Theorem stopping_criteria_priority text (toks : list Z) stops
    (seqs : list (list Z)) :
  let r := stopping_criteria text toks stops seqs in
  ((exists s, s ∈ stops /\ occurs s text) ->
   Some r = check_full_text_match text stops /\ status r = "full_stop")
  /\
  ((forall s, s ∈ stops -> ~ occurs s text) ->
   (exists q, q ∈ seqs /\ overlaps toks q) ->
   Some r = check_partial_token_match toks seqs /\
   r = StoppingCriteriaResult "partial_match" None)
  /\
  ((forall s, s ∈ stops -> ~ occurs s text) ->
   ~ (exists q, q ∈ seqs /\ overlaps toks q) ->
   (exists s, s ∈ stops /\ overlaps text s) ->
   Some r = check_partial_text_match text stops /\
   r = StopStringProcessorResult "partial_match" None None)
  /\
  ((forall s, s ∈ stops -> ~ occurs s text) ->
   ~ (exists q, q ∈ seqs /\ overlaps toks q) ->
   ~ (exists s, s ∈ stops /\ overlaps text s) ->
   r = StoppingCriteriaResult "no_match" None).
Proof.
  intros r. subst r. unfold stopping_criteria.
  split; [|split; [|split]].
  - intros Hocc.
    destruct (check_full_text_match_Some text stops Hocc) as (s & ->).
    done.
  - intros Hno%check_full_text_match_None Htok. rewrite Hno. simpl.
    destruct (check_partial_token_match_cases toks seqs) as [[-> _] | [_ N]];
      [done | by destruct N].
  - intros Hno%check_full_text_match_None Htok Htxt. rewrite Hno. simpl.
    destruct (check_partial_token_match_cases toks seqs) as [[_ Y] | [-> _]];
      [by destruct Htok|]. simpl.
    destruct (check_partial_text_match_cases text stops) as [[-> _] | [_ N]];
      [done | by destruct N].
  - intros Hno%check_full_text_match_None Htok Htxt. rewrite Hno. simpl.
    destruct (check_partial_token_match_cases toks seqs) as [[_ Y] | [-> _]];
      [by destruct Htok|]. simpl.
    destruct (check_partial_text_match_cases text stops) as [[_ Y] | [-> _]];
      [by destruct Htxt | done].
Qed.

(** The evaluator only ever reports one of the three statuses. *)
Lemma stopping_criteria_status text (toks : list Z) stops (seqs : list (list Z)) :
  status (stopping_criteria text toks stops seqs) = "full_stop" \/
  status (stopping_criteria text toks stops seqs) = "partial_match" \/
  status (stopping_criteria text toks stops seqs) = "no_match".
Proof.
  unfold stopping_criteria, check_full_text_match.
  destruct (matched _); simpl; [by left|].
  destruct (check_partial_token_match_cases toks seqs) as [[-> _] | [-> _]];
    simpl; [right; by left|].
  destruct (check_partial_text_match_cases text stops) as [[-> _] | [-> _]];
    simpl; [right; by left|right; by right].
Qed.

Section Processor.
Context `{!Tokenizer (Char := Char)}.

(** [process_token_with] on a processor with at least one stop string, by
    the status the evaluator reports for the buffer with the token appended. *)
Lemma process_token_with_cases (criteria : evaluator) self (t : Z) :
  stop_strings self <> [] ->
  let buffer := token_id_buffer self ++ [t] in
  let verdict := criteria (decode buffer) buffer (stop_strings self)
                          (stop_token_sequences self) in
  process_token_with criteria self t =
    if String.eqb (status verdict) "no_match" then
      (inr (StopStringProcessorResult "no_match" None None), set_buffer self [])
    else if String.eqb (status verdict) "partial_match" then
      (inr (StopStringProcessorResult "partial_match" None None),
       set_buffer self buffer)
    else if String.eqb (status verdict) "full_stop" then
      (inr (StopStringProcessorResult "full_stop" (stop_string verdict)
              (Some buffer)), set_buffer self buffer)
    else
      (inl (ValueError ("Unknown StopProcessorStatus: " +:+ status verdict)),
       set_buffer self buffer).
Proof.
  intros Hne. destruct self as [ss sts buf]. simpl in *.
  unfold process_token_with. simpl. destruct ss as [|s0 ss]; [done|].
  reflexivity.
Qed.

(** One call on a processor with stop strings returns a result and leaves
    either an empty buffer (the result is [no_match]) or the buffer with the
    token appended (any other result). *)
Lemma process_token_step self (t : Z) :
  stop_strings self <> [] ->
  exists r b,
    process_token self t = (inr r, set_buffer self b) /\
    ((status r = "no_match" /\ b = []) \/
     (status r <> "no_match" /\ b = token_id_buffer self ++ [t])).
Proof.
  intros Hne. unfold process_token.
  rewrite (process_token_with_cases stopping_criteria self t Hne).
  cbv zeta.
  destruct (stopping_criteria_status (decode (token_id_buffer self ++ [t]))
              (token_id_buffer self ++ [t]) (stop_strings self)
              (stop_token_sequences self)) as [E | [E | E]];
    rewrite E; simpl; eexists _, _; (split; [reflexivity|]); simpl;
    [right | right | left]; done.
Qed.

(** Over a whole stream no call raises, and the buffer at the end holds
    exactly the tokens fed since the last [no_match] result (all of them,
    after the starting buffer, when there was none). *)
Lemma feed_buffer self (stream : list Z) :
  stop_strings self <> [] ->
  exists rs self',
    feed self stream = (rs, None, self') /\
    length rs = length stream /\
    stop_strings self' = stop_strings self /\
    ((Forall (fun r => status r <> "no_match") rs /\
      token_id_buffer self' = token_id_buffer self ++ stream)
     \/
     (exists (n : nat) r,
         rs !! n = Some r /\ status r = "no_match" /\
         Forall (fun r => status r <> "no_match") (drop (S n) rs) /\
         token_id_buffer self' = drop (S n) stream)).
Proof.
  revert self. induction stream as [|t rest IH]; intros self Hne.
  - exists [], self. simpl. split; [done|]. split; [done|]. split; [done|].
    left. split; [constructor|]. by rewrite app_nil_r.
  - destruct (process_token_step self t Hne) as (r & b & Estep & Hb).
    destruct (IH (set_buffer self b)) as (rs & self' & Efeed & Hlen & Hss & Hbuf);
      [done|].
    exists (r :: rs), self'. cbn [feed]. rewrite Estep, Efeed.
    split; [done|]. split; [simpl; lia|]. split; [done|].
    destruct Hbuf as [[Hall Hbuf] | (n & r' & Hn & Hr' & Hall & Hbuf)].
    + destruct Hb as [[Hr ->] | [Hr ->]].
      * right. exists 0%nat, r. simpl in *. by rewrite drop_0.
      * left. split; [by constructor|]. simpl in Hbuf.
        by rewrite Hbuf, <- app_assoc.
    + right. by exists (S n), r'.
Qed.

(** C3.  With a non-empty stop-string list, [process_token] appends the
    token to the buffer and asks the evaluator about the appended buffer and
    its decoded text.  On no-match the buffer is reset to empty and
    [no_match] is returned; on partial-match the appended buffer is kept and
    [partial_match] is returned; on full-stop [full_stop] is returned with
    the matched stop string and the whole appended buffer as [stop_tokens].
    The evaluator reports no other status.  Over any stream of calls the
    buffer is therefore made of every token appended since the last
    [no_match] result. *)
Theorem process_token_outcome self (t : Z) :
  stop_strings self <> [] ->
  let buffer := token_id_buffer self ++ [t] in
  let verdict := stopping_criteria (decode buffer) buffer (stop_strings self)
                                   (stop_token_sequences self) in
  (status verdict = "no_match" ->
   process_token self t =
     (inr (StopStringProcessorResult "no_match" None None),
      set_buffer self []))
  /\
  (status verdict = "partial_match" ->
   process_token self t =
     (inr (StopStringProcessorResult "partial_match" None None),
      set_buffer self buffer))
  /\
  (status verdict = "full_stop" ->
   process_token self t =
     (inr (StopStringProcessorResult "full_stop" (stop_string verdict)
             (Some buffer)),
      set_buffer self buffer))
  /\
  (status verdict = "no_match" \/ status verdict = "partial_match" \/
   status verdict = "full_stop")
  /\
  (forall stream : list Z,
      exists rs self',
        feed self stream = (rs, None, self') /\
        ((Forall (fun r => status r <> "no_match") rs /\
          token_id_buffer self' = token_id_buffer self ++ stream)
         \/
         (exists (n : nat) r,
             rs !! n = Some r /\ status r = "no_match" /\
             Forall (fun r => status r <> "no_match") (drop (S n) rs) /\
             token_id_buffer self' = drop (S n) stream))).
Proof.
  intros Hne buffer verdict. unfold process_token.
  rewrite (process_token_with_cases stopping_criteria self t Hne).
  fold buffer. fold verdict.
  split; [|split; [|split; [|split]]].
  - by intros ->.
  - by intros ->.
  - by intros ->.
  - destruct (stopping_criteria_status (decode buffer) buffer
                (stop_strings self) (stop_token_sequences self)) as [E|[E|E]];
      fold verdict in E; tauto.
  - intros stream.
    destruct (feed_buffer self stream Hne) as (rs & self' & E & _ & _ & Hbuf).
    by exists rs, self'.
Qed.

(** C6.  Whatever evaluator is bound to [stopping_criteria], when the
    status it reports is none of [full_stop], [partial_match] and
    [no_match], [process_token] raises [ValueError] and returns no result. *)
Theorem process_token_unknown_status (criteria : evaluator) self (t : Z) :
  stop_strings self <> [] ->
  let buffer := token_id_buffer self ++ [t] in
  let verdict := criteria (decode buffer) buffer (stop_strings self)
                          (stop_token_sequences self) in
  status verdict <> "full_stop" ->
  status verdict <> "partial_match" ->
  status verdict <> "no_match" ->
  fst (process_token_with criteria self t) =
    inl (ValueError ("Unknown StopProcessorStatus: " +:+ status verdict)).
Proof.
  intros Hne buffer verdict Hf Hp Hn.
  rewrite (process_token_with_cases criteria self t Hne).
  fold buffer. fold verdict.
  apply String.eqb_neq in Hf, Hp, Hn. by rewrite Hn, Hp, Hf.
Qed.

(** C10.  When the empty string is among the stop strings, the evaluator
    reports [full_stop] for every text and token sequence, and a fresh
    processor reports [full_stop] for the first token it is given. *)
Theorem empty_stop_string_full_stop stops :
  [] ∈ stops ->
  (forall text (toks : list Z) (seqs : list (list Z)),
      exists s, stopping_criteria text toks stops seqs
                = StoppingCriteriaResult "full_stop" (Some s))
  /\
  (forall t : Z,
      exists s, process_token (init stops) t
                = (inr (StopStringProcessorResult "full_stop" (Some s) (Some [t])),
                   set_buffer (init stops) [t])).
Proof.
  intros Hin.
  assert (Hev : forall text (toks : list Z) (seqs : list (list Z)),
             exists s, stopping_criteria text toks stops seqs
                       = StoppingCriteriaResult "full_stop" (Some s)).
  { intros text toks seqs.
    destruct (check_full_text_match_Some text stops) as (s & E).
    - exists []. split; [done|]. exists 0%nat, [], text. by split.
    - exists s. unfold stopping_criteria. by rewrite E. }
  split; [done|]. intros t.
  assert (Hne : stop_strings (init stops) <> []).
  { simpl. intros ->. by apply elem_of_nil in Hin. }
  unfold process_token.
  rewrite (process_token_with_cases stopping_criteria (init stops) t Hne).
  simpl.
  destruct (Hev (decode [t]) [t] (map encode stops)) as [s ->].
  by exists s.
Qed.

End Processor.

End Evaluator.

(** *** The statements above at sample inputs *)

Import Samples.

(** A stop string that spans several tokens: two of its three tokens and
    then an unrelated one resolve to no match and an empty buffer; all three
    give a full stop whose [stop_tokens] are the three tokens. *)
Example multi_token_stop_completed :
  feed (H := glyph_tokenizer) (init (H := glyph_tokenizer) [chars "X"]) [7; 8; 9]
  = ([StopStringProcessorResult "partial_match" None None;
      StopStringProcessorResult "partial_match" None None;
      StopStringProcessorResult "full_stop" (Some (chars "X")) (Some [7; 8; 9])],
     None,
     set_buffer (init (H := glyph_tokenizer) [chars "X"]) [7; 8; 9]).
Proof. reflexivity. Qed.

Example multi_token_stop_abandoned :
  feed (H := glyph_tokenizer) (init (H := glyph_tokenizer) [chars "X"]) [7; 8; 5]
  = ([StopStringProcessorResult "partial_match" None None;
      StopStringProcessorResult "partial_match" None None;
      StopStringProcessorResult "no_match" None None],
     None,
     init (H := glyph_tokenizer) [chars "X"]).
Proof. reflexivity. Qed.

Example find_examples :
  find (chars "hello world") (chars "o w") = 4 /\
  find (chars "aab") (chars "ab") = 1 /\
  find (chars "abc") (chars "abcd") = -1 /\
  find (chars "") (chars "") = 0 /\
  find (chars "abc") (chars "") = 0.
Proof. repeat split. Qed.

Lemma sequence_overlap_correct_witness :
  sequence_overlap (chars "hello wo") (chars "world") = true /\
  any (fun i => bool_decide (slice_from_end (chars "hello wo") i =
                             slice_to (chars "world") i))
      (rev (range 1 6))
  = sequence_overlap (chars "hello wo") (chars "world").
Proof.
  destruct (sequence_overlap_correct (chars "hello wo")
              (chars "world")) as [Hiff Horder].
  split.
  - apply Hiff. exists 2%nat, (chars "wo"). split; [simpl; lia|].
    split; [reflexivity|]. split.
    + by exists (chars "hello ").
    + by exists (chars "rld").
  - apply Horder. apply Permutation_sym, Permutation_rev.
Defined.

Lemma check_full_text_match_earliest_witness :
  exists (k : nat) s (p : nat),
    check_full_text_match (chars "xx bcd abc")
      [chars "abc"; chars "bcd"; chars "xx b";
       chars "xx"]
      = Some (StoppingCriteriaResult "full_stop" (Some s)) /\
    [chars "abc"; chars "bcd"; chars "xx b";
     chars "xx"] !! k = Some s /\
    first_occurrence s (chars "xx bcd abc") p /\
    (forall s' q,
        s' ∈ [chars "abc"; chars "bcd"; chars "xx b";
              chars "xx"] ->
        occurs_at s' (chars "xx bcd abc") q -> (p <= q)%nat) /\
    (forall (j : nat) s' q, (j < k)%nat ->
        [chars "abc"; chars "bcd"; chars "xx b";
         chars "xx"] !! j = Some s' ->
        occurs_at s' (chars "xx bcd abc") q -> (p < q)%nat).
Proof.
  apply check_full_text_match_earliest.
  exists (chars "abc"). split; [by left|].
  exists 7%nat, (chars "xx bcd "), []. by split.
Defined.

Lemma stopping_criteria_priority_witness :
  stopping_criteria (chars "xx abc") [1; 5] [chars "abc"] [[5; 6]]
    = StoppingCriteriaResult "full_stop" (Some (chars "abc")) /\
  stopping_criteria (chars "xx ab") [1; 5] [chars "abc"] [[5; 6]]
    = StoppingCriteriaResult "partial_match" None /\
  stopping_criteria (chars "xx ab") [1; 2] [chars "abc"] [[5; 6]]
    = StopStringProcessorResult "partial_match" None None /\
  stopping_criteria (chars "xx") [1; 2] [chars "abc"] [[5; 6]]
    = StoppingCriteriaResult "no_match" None.
Proof.
  assert (Hno : forall text, find text (chars "abc") = -1 ->
                forall s, s ∈ [chars "abc"] -> ~ occurs s text).
  { intros text E s Hs. apply list_elem_of_singleton in Hs as ->.
    by apply find_not_found. }
  assert (Htok : exists q : list Z, q ∈ [[5; 6]] /\ overlaps [1; 5] q).
  { exists [5; 6]. split; [by left|]. exists [5]. split; [done|].
    split; [by exists [1] | by exists [6]]. }
  assert (Hntok : ~ exists q : list Z, q ∈ [[5; 6]] /\ overlaps [1; 2] q).
  { destruct (check_partial_token_match_cases (Char := ascii) [1; 2] [[5; 6]])
      as [[E _] | [_ N]]; [discriminate E | exact N]. }
  split; [|split; [|split]].
  - destruct (stopping_criteria_priority (chars "xx abc") [1; 5]
                [chars "abc"] [[5; 6]]) as (Hfull & _).
    destruct Hfull as [E _].
    + exists (chars "abc"). split; [by left|].
      exists 3%nat, (chars "xx "), []. by split.
    + cbv zeta in E. apply (inj Some). etrans; [exact E | done].
  - apply (stopping_criteria_priority (chars "xx ab") [1; 5]
             [chars "abc"] [[5; 6]]); [by apply Hno | exact Htok].
  - apply (stopping_criteria_priority (chars "xx ab") [1; 2]
             [chars "abc"] [[5; 6]]); [by apply Hno | exact Hntok |].
    exists (chars "abc"). split; [by left|].
    exists (chars "ab"). split; [done|].
    split; [by exists (chars "xx ") | by exists (chars "c")].
  - apply (stopping_criteria_priority (chars "xx") [1; 2]
             [chars "abc"] [[5; 6]]); [by apply Hno | exact Hntok |].
    destruct (check_partial_text_match_cases (chars "xx")
                [chars "abc"]) as [[E _] | [_ N]];
      [discriminate E | exact N].
Defined.

Lemma process_token_outcome_witness :
  process_token (set_buffer (init [chars "ab"]) [120; 97]) 98
  = (inr (StopStringProcessorResult "full_stop" (Some (chars "ab"))
            (Some [120; 97; 98])),
     set_buffer (init [chars "ab"]) [120; 97; 98]) /\
  process_token (init [chars "ab"]) 97
  = (inr (StopStringProcessorResult "partial_match" None None),
     set_buffer (init [chars "ab"]) [97]) /\
  process_token (set_buffer (init [chars "ab"]) [97]) 120
  = (inr (StopStringProcessorResult "no_match" None None),
     init [chars "ab"]).
Proof.
  split; [|split].
  - destruct (process_token_outcome
                (set_buffer (init [chars "ab"]) [120; 97]) 98)
      as (_ & _ & Hfull & _); [done|].
    exact (Hfull eq_refl).
  - destruct (process_token_outcome (init [chars "ab"]) 97)
      as (_ & Hpartial & _); [done|].
    exact (Hpartial eq_refl).
  - destruct (process_token_outcome
                (set_buffer (init [chars "ab"]) [97]) 120)
      as (Hnone & _); [done|].
    exact (Hnone eq_refl).
Defined.

Lemma process_token_unknown_status_witness :
  fst (process_token_with confused_criteria
         (init [chars "ab"]) 97)
  = inl (ValueError "Unknown StopProcessorStatus: maybe").
Proof.
  by apply (process_token_unknown_status confused_criteria
              (init [chars "ab"]) 97).
Defined.

Lemma empty_stop_string_full_stop_witness :
  (forall text (toks : list Z) (seqs : list (list Z)),
      exists s, stopping_criteria text toks [chars "ab"; []] seqs
                = StoppingCriteriaResult "full_stop" (Some s))
  /\
  (forall t : Z,
      exists s, process_token (init [chars "ab"; []]) t
                = (inr (StopStringProcessorResult "full_stop" (Some s) (Some [t])),
                   set_buffer (init [chars "ab"; []]) [t])).
Proof.
  apply (empty_stop_string_full_stop (Tokenizer0 := byte_tokenizer)).
  right. by left.
Defined.

End StopStringsFacts.

(** ** The generation loop *)

Module GenerateFacts.
Import StopStrings Generate.

Section Generator.
Context {Char Float Logprobs GenerationStopCondition : Type}.
Context `{!ModelKit (Char := Char) (Float := Float) (Logprobs := Logprobs)}.
Context `{!StopProcessorKit (Char := Char)
            (GenerationStopCondition := GenerationStopCondition)}.

Local Abbreviation Event :=
  (event (Char := Char) (Float := Float) (Logprobs := Logprobs)
         (GenerationStopCondition := GenerationStopCondition)).
Local Abbreviation Result :=
  (GenerationResult (Char := Char) (Float := Float)
                    (GenerationStopCondition := GenerationStopCondition)).

Lemma yielded_app (evs evs' : list Event) :
  yielded (evs ++ evs') = yielded evs ++ yielded evs'.
Proof. unfold yielded. apply omap_app. Qed.

Lemma requests_app (evs evs' : list Event) :
  requests (evs ++ evs') = requests evs ++ requests evs'.
Proof. unfold requests. apply omap_app. Qed.

Lemma yielded_yield_event (y : option Result) :
  yielded (yield_event y : list Event) = option_list y.
Proof. by destruct y. Qed.

(** Whatever the loop body yields carries no stop condition. *)
Lemma loop_body_yield top_k st g st' y c r :
  loop_body top_k st g = (st', y, c) -> y = Some r -> stop_condition r = None.
Proof.
  unfold loop_body.
  destruct (stop_process_token (stop_processor st) (token g)) as [v sp].
  destruct (_ && _); [congruence|].
  destruct (String.eqb _ _); [congruence|].
  destruct (text_buffer st ++ segment g); [congruence|].
  intros [= <- <- <-] [= <-]. done.
Qed.

Lemma generation_loop_yields top_k st source :
  Forall (fun r => stop_condition r = None)
         (yielded (fst (generation_loop top_k st source))).
Proof.
  revert st. induction source as [|g rest IH]; intros st; simpl.
  - constructor.
  - destruct (loop_body top_k st g) as [[st' y] c] eqn:E.
    assert (Hy : Forall (fun r => stop_condition r = None) (option_list y)).
    { destruct y as [r|]; simpl; [|constructor].
      constructor; [|constructor]. by eapply loop_body_yield. }
    destruct c.
    + cbn [fst].
      change (yielded (NextToken (Some g) :: yield_event y))
        with (yielded (yield_event y : list Event)).
      by rewrite yielded_yield_event.
    + specialize (IH st').
      destruct (generation_loop top_k st' rest) as [evs st'']. cbn [fst] in *.
      change (yielded (NextToken (Some g) :: yield_event y ++ evs))
        with (yielded (yield_event y ++ evs)).
      rewrite yielded_app, yielded_yield_event. by apply Forall_app.
Qed.

(** The loop asks the token source at least once. *)
Lemma generation_loop_requests top_k st source :
  requests (fst (generation_loop top_k st source)) <> [].
Proof.
  destruct source as [|g rest]; simpl; [done|].
  destruct (loop_body top_k st g) as [[st' y] []]; [done|].
  by destruct (generation_loop top_k st' rest).
Qed.

(** A run whose [top_logprobs] is within the cap: the loop over the token
    source, then the final result built from [finalize]. *)
Lemma create_generator_within_cap args :
  default 0 (arg_top_logprobs args) <= MAX_TOP_LOGPROBS ->
  exists evs st final cond,
    generation_loop (default 0 (arg_top_logprobs args)) (initial_state args)
                    (stream_generate (arg_max_tokens args)) = (evs, st) /\
    create_generator args = {| events := evs ++ [Yield final]; raised := None |} /\
    stop_condition final = Some cond /\
    tokens final = token_buffer st /\
    top_logprobs final = top_logprobs_buffer st.
Proof.
  intros Hcap. unfold create_generator.
  rewrite bool_decide_eq_false_2 by lia.
  destruct (generation_loop _ _ _) as [evs st].
  pose proof (finalize_stop_condition (stop_processor st) (text_buffer st)
                (stop_processor_result st)) as [cond Hcond].
  destruct (finalize _ _ _) as [final_text c]. simpl in Hcond. subst c.
  by eexists evs, st, _, cond.
Qed.

Lemma create_generator_raised args :
  raised (create_generator args) = None ->
  default 0 (arg_top_logprobs args) <= MAX_TOP_LOGPROBS.
Proof.
  unfold create_generator. case_bool_decide; [discriminate | lia].
Qed.

Lemma filter_no_stop_condition (l : list Result) :
  Forall (fun r => stop_condition r = None) l ->
  filter (fun r => is_Some (stop_condition r)) l = [].
Proof.
  induction 1 as [|r l Hr _ IH]; [done|].
  rewrite filter_cons, IH. destruct (decide _) as [[c Hc]|]; [congruence|done].
Qed.

(** C4.  In a run that ends normally, the yielded results are some results
    without a stop condition followed by one last result with a stop
    condition: exactly one result of the run carries one, and yielding it is
    the last thing the run does. *)
Theorem one_stop_condition_at_the_end args :
  raised (create_generator args) = None ->
  exists before final,
    yielded (events (create_generator args)) = before ++ [final] /\
    Forall (fun r => stop_condition r = None) before /\
    is_Some (stop_condition final) /\
    last (events (create_generator args)) = Some (Yield final) /\
    length (filter (fun r => is_Some (stop_condition r))
                   (yielded (events (create_generator args)))) = 1%nat.
Proof.
  intros Hcap%create_generator_raised.
  destruct (create_generator_within_cap args Hcap)
    as (evs & st & final & cond & Eloop & -> & Hcond & _).
  pose proof (generation_loop_yields (default 0 (arg_top_logprobs args))
                (initial_state args) (stream_generate (arg_max_tokens args)))
    as Hnone.
  rewrite Eloop in Hnone. cbn [fst events] in *.
  exists (yielded evs), final. rewrite yielded_app. cbn [yielded omap].
  split; [done|]. split; [done|]. split; [by exists cond|].
  split; [apply last_snoc|].
  rewrite filter_app, filter_no_stop_condition by done.
  change (yielded [Yield final]) with [final].
  rewrite filter_cons. destruct (decide _) as [|N]; [done|].
  destruct N. by exists cond.
Qed.

(** C5.  One step of the loop, by what the stop processor reports for the
    token.  On [partial_match] the decoded text joins the text buffer and
    nothing is yielded.  On [no_match] the decoded text joins the text
    buffer, and a result is yielded exactly when that buffer is then
    non-empty: it carries the accumulated text, the buffered tokens and
    top-logprobs and no stop condition, and the three buffers are emptied
    afterwards. *)
Theorem loop_body_flush top_k st g :
  let verdict := fst (stop_process_token (stop_processor st) (token g)) in
  let out := loop_body top_k st g in
  let st' := fst (fst out) in
  let yield := snd (fst out) in
  let text' := text_buffer st ++ segment g in
  let tokens' :=
    token_buffer st ++
    [{| id := token g; token_text := tokenizer_decode (token g);
        logprob := logprob_at (logprobs g) (token g) |}] in
  let tops' :=
    if top_k =? 0 then top_logprobs_buffer st
    else top_logprobs_buffer st ++ [summarize_top_logprobs (logprobs g) top_k] in
  (result_status verdict = "partial_match" ->
   yield = None /\ snd out = Next /\
   text_buffer st' = text' /\ token_buffer st' = tokens' /\
   top_logprobs_buffer st' = tops')
  /\
  (result_status verdict = "no_match" ->
   snd out = Next /\
   (is_Some yield <-> text' <> []) /\
   (text' <> [] ->
    yield = Some {| text := text'; tokens := tokens'; top_logprobs := tops';
                    stop_condition := None |} /\
    text_buffer st' = [] /\ token_buffer st' = [] /\
    top_logprobs_buffer st' = []) /\
   (text' = [] ->
    text_buffer st' = [] /\ token_buffer st' = tokens' /\
    top_logprobs_buffer st' = tops')).
Proof.
  intros verdict out st' yield text' tokens' tops'.
  subst verdict out st' yield. unfold loop_body.
  assert (Etops : (if negb (top_k =? 0)
                   then top_logprobs_buffer st ++
                        [summarize_top_logprobs (logprobs g) top_k]
                   else top_logprobs_buffer st) = tops').
  { subst tops'. by destruct (top_k =? 0). }
  rewrite Etops. fold text' tokens'.
  destruct (stop_process_token (stop_processor st) (token g)) as [v sp].
  cbn [fst]. split.
  - intros ->. simpl. done.
  - intros ->. simpl. destruct text' as [|c rest]; simpl.
    + split; [done|]. split; [|done]. split; [by intros [? ?]|done].
    + split; [done|]. split; [|done]. split; [done|by eexists].
Qed.

(** C8.  When [top_logprobs] exceeds [MAX_TOP_LOGPROBS] (10), the run ends
    in [ValueError] without a request to the token source and without a
    result. *)
Theorem top_logprobs_above_cap args k :
  arg_top_logprobs args = Some k ->
  k > MAX_TOP_LOGPROBS ->
  raised (create_generator args)
    = Some (ValueError "top_logprobs must be less than or equal to 10") /\
  requests (events (create_generator args)) = [] /\
  yielded (events (create_generator args)) = [].
Proof.
  intros Ek Hk. unfold create_generator. rewrite Ek. simpl.
  by rewrite bool_decide_eq_true_2.
Qed.

(** The first thing the loop does is ask the token source for a response. *)
Lemma generation_loop_first_event top_k st source :
  exists rest : list Event,
    fst (generation_loop top_k st source) = NextToken (head source) :: rest.
Proof.
  destruct source as [|g more]; simpl; [by eexists|].
  destruct (loop_body top_k st g) as [[st' y] []]; [by eexists|].
  destruct (generation_loop top_k st' more). by eexists.
Qed.

(** C9.  A negative maximum token count is not rejected where the
    docstring and the check on [top_logprobs] next to it would have it
    rejected: with [top_logprobs] within the cap, the first thing the run
    does is ask the token source, to which the negative count was handed
    unchanged, for a response.  The run therefore does not fail fast; what
    happens from that request on is the token source's doing. *)
Theorem negative_max_tokens_reaches_source args m :
  arg_max_tokens args = Some m ->
  m < 0 ->
  default 0 (arg_top_logprobs args) <= MAX_TOP_LOGPROBS ->
  (exists rest,
      events (create_generator args)
      = NextToken (head (stream_generate (Some m))) :: rest) /\
  ~ fails_fast (create_generator args).
Proof.
  intros Em Hm Hcap.
  destruct (create_generator_within_cap args Hcap)
    as (evs & st & final & cond & Eloop & -> & _).
  rewrite Em in Eloop.
  destruct (generation_loop_first_event (default 0 (arg_top_logprobs args))
              (initial_state args) (stream_generate (Some m))) as [rest Efirst].
  rewrite Eloop in Efirst. cbn [fst events] in *. subst evs.
  split; [by eexists|].
  intros [_ Hreq]. discriminate Hreq.
Qed.

End Generator.

(** *** The statements above at sample inputs *)

Import Samples.

Lemma one_stop_condition_at_the_end_witness :
  exists before final,
    yielded (events (create_generator stop_on_stop)) = before ++ [final] /\
    Forall (fun r => stop_condition r = None) before /\
    is_Some (stop_condition final) /\
    last (events (create_generator stop_on_stop)) = Some (Yield final) /\
    length (filter (fun r => is_Some (stop_condition r))
                   (yielded (events (create_generator stop_on_stop)))) = 1%nat.
Proof. apply one_stop_condition_at_the_end. reflexivity. Defined.

Lemma loop_body_flush_witness :
  (snd (fst (loop_body 0 (initial_state stop_on_stop)
               {| token := 115; logprobs := tt; segment := chars "s" |})) = None /\
   text_buffer after_s = chars "s") /\
  (snd (fst (loop_body 0 after_s
               {| token := 97; logprobs := tt; segment := chars "a" |}))
   = Some {| text := chars "sa";
             tokens := [{| id := 115; token_text := chars "s"; logprob := 0 |};
                        {| id := 97; token_text := chars "a"; logprob := 0 |}];
             top_logprobs := [];
             stop_condition := None |}).
Proof.
  split.
  - destruct (loop_body_flush 0 (initial_state stop_on_stop)
                {| token := 115; logprobs := tt; segment := chars "s" |})
      as [Hpartial _].
    destruct (Hpartial eq_refl) as (Hy & _ & Ht & _). by split.
  - destruct (loop_body_flush 0 after_s
                {| token := 97; logprobs := tt; segment := chars "a" |})
      as [_ Hnone].
    destruct (Hnone eq_refl) as (_ & _ & Hflush & _).
    destruct Hflush as [Hy _]; [done|]. exact Hy.
Defined.

Lemma top_logprobs_above_cap_witness :
  raised (create_generator too_many_logprobs)
    = Some (ValueError "top_logprobs must be less than or equal to 10") /\
  requests (events (create_generator too_many_logprobs)) = [] /\
  yielded (events (create_generator too_many_logprobs)) = [].
Proof. by apply (top_logprobs_above_cap too_many_logprobs 11). Defined.

Lemma negative_max_tokens_reaches_source_witness :
  (exists rest,
      events (create_generator negative_budget)
      = NextToken (head (stream_generate (Some (-1)))) :: rest) /\
  ~ fails_fast (create_generator negative_budget).
Proof. by apply (negative_max_tokens_reaches_source negative_budget (-1)). Defined.

End GenerateFacts.

(** ** Further properties of the stop-string processor *)

Module StopStringsMore.
Import Py PyFacts StopStrings StopStringsFacts.

Section Checks.
Context {Char : Type} `{EqDecision Char}.
Implicit Types (text stop : list Char) (stops : list (list Char)).

(** The two outcomes of the full-text check. *)
Lemma check_full_text_match_cases text stops :
  (check_full_text_match text stops = None /\
   forall s, s ∈ stops -> ~ occurs s text)
  \/
  (exists s, check_full_text_match text stops
             = Some (StoppingCriteriaResult "full_stop" (Some s)) /\
             s ∈ stops /\ occurs s text).
Proof.
  unfold check_full_text_match.
  destruct (scan_invariant text stops)
    as [(_ & -> & Hno) | (k & s & p & _ & -> & Hk & [Hocc _] & _)].
  - by left.
  - right. exists s. split; [done|]. split.
    + by eapply list_elem_of_lookup_2.
    + by exists p.
Qed.

(** The four outcomes of [stopping_criteria], each with the condition under
    which it is returned. *)
Lemma stopping_criteria_cases text (toks : list Z) stops (seqs : list (list Z)) :
  let r := stopping_criteria text toks stops seqs in
  (exists s, r = StoppingCriteriaResult "full_stop" (Some s) /\
             s ∈ stops /\ occurs s text)
  \/
  ((forall s, s ∈ stops -> ~ occurs s text) /\
   ((r = StoppingCriteriaResult "partial_match" None /\
     exists q, q ∈ seqs /\ overlaps toks q)
    \/
    ((~ exists q, q ∈ seqs /\ overlaps toks q) /\
     ((r = StopStringProcessorResult "partial_match" None None /\
       exists s, s ∈ stops /\ overlaps text s)
      \/
      (r = StoppingCriteriaResult "no_match" None /\
       ~ exists s, s ∈ stops /\ overlaps text s))))).
Proof.
  intros r. subst r. unfold stopping_criteria.
  destruct (check_full_text_match_cases text stops)
    as [[-> Hno] | (s & -> & Hs & Hocc)]; simpl.
  - right. split; [done|].
    destruct (check_partial_token_match_cases (Char := Char) toks seqs)
      as [[-> Htok] | [-> Hntok]]; simpl; [by left|].
    right. split; [done|].
    destruct (check_partial_text_match_cases text stops)
      as [[-> Htxt] | [-> Hntxt]]; simpl; [by left | by right].
  - left. by exists s.
Qed.

(** X4.  What each status of [stopping_criteria] means: [full_stop] exactly
    when a configured stop string occurs in the text; [no_match] exactly
    when no stop string occurs in the text, the text does not end in the
    start of one, and the tokens do not end in the start of a stop token
    sequence; [partial_match] in the remaining case.  The result carries a
    stop string exactly when it is a [full_stop], and that string is a
    configured one that occurs in the text. *)
Theorem stopping_criteria_verdict text (toks : list Z) stops
    (seqs : list (list Z)) :
  let r := stopping_criteria text toks stops seqs in
  (status r = "full_stop" <-> exists s, s ∈ stops /\ occurs s text)
  /\
  (status r = "no_match" <->
     (forall s, s ∈ stops -> ~ occurs s text /\ ~ overlaps text s) /\
     (forall q, q ∈ seqs -> ~ overlaps toks q))
  /\
  (status r = "partial_match" <->
     (forall s, s ∈ stops -> ~ occurs s text) /\
     ((exists q, q ∈ seqs /\ overlaps toks q) \/
      (exists s, s ∈ stops /\ overlaps text s)))
  /\
  (is_Some (stop_string r) <-> status r = "full_stop")
  /\
  (forall s, stop_string r = Some s -> s ∈ stops /\ occurs s text).
Proof.
  intros r.
  destruct (stopping_criteria_cases text toks stops seqs)
    as [(s & E & Hs & Hocc)
       | [Hno [[E Htok] | [Hntok [[E Htxt] | [E Hntxt]]]]]];
    fold r in E; rewrite E; simpl.
  - split; [|split; [|split; [|split]]].
    + split; [by exists s | done].
    + split; [done|]. intros [Hn _]. by destruct (Hn s Hs).
    + split; [done|]. intros [Hn _]. by destruct (Hn s Hs).
    + split; [done | by eexists].
    + by intros ? [= <-].
  - split; [|split; [|split; [|split]]].
    + split; [done|]. intros (s & Hs & Hocc). by destruct (Hno s Hs).
    + split; [done|]. intros [_ Hn]. destruct Htok as (q & Hq & Ho).
      by destruct (Hn q Hq).
    + split; [|done]. intros _. split; [done | by left].
    + split; [by intros [? ?] | done].
    + done.
  - split; [|split; [|split; [|split]]].
    + split; [done|]. intros (s & Hs & Hocc). by destruct (Hno s Hs).
    + split; [done|]. intros [Hn _]. destruct Htxt as (s & Hs & Ho).
      by destruct (Hn s Hs) as [_ []].
    + split; [|done]. intros _. split; [done | by right].
    + split; [by intros [? ?] | done].
    + done.
  - split; [|split; [|split; [|split]]].
    + split; [done|]. intros (s & Hs & Hocc). by destruct (Hno s Hs).
    + split; [|done]. intros _. split.
      * intros s Hs. split; [by apply Hno|]. intros Ho. apply Hntxt. by exists s.
      * intros q Hq Ho. apply Hntok. by exists q.
    + split; [done|]. intros [_ [Hy | Hy]]; [by destruct Hntok | by destruct Hntxt].
    + split; [by intros [? ?] | done].
    + done.
Qed.

(** X5.  [check_full_text_match] returns [None] exactly when no configured
    stop string occurs in the text (so always for an empty stop list), and
    otherwise a [full_stop] whose stop string is a configured one that occurs
    in the text. *)
Theorem check_full_text_match_none_or_member text stops :
  (check_full_text_match text stops = None <->
   forall s, s ∈ stops -> ~ occurs s text)
  /\
  (forall r, check_full_text_match text stops = Some r ->
             exists s, r = StoppingCriteriaResult "full_stop" (Some s) /\
                       s ∈ stops /\ occurs s text)
  /\
  check_full_text_match text [] = None.
Proof.
  split; [|split; [|done]].
  - destruct (check_full_text_match_cases text stops)
      as [[-> Hno] | (s & -> & Hs & Hocc)]; [done|].
    split; [done|]. intros Hn. by destruct (Hn s Hs).
  - intros r. destruct (check_full_text_match_cases text stops)
      as [[-> Hno] | (s & -> & Hs & Hocc)]; [done|].
    intros [= <-]. by exists s.
Qed.

Lemma overlap_exists_perm {A : Type} (a : list A) (l l' : list (list A)) :
  l ≡ₚ l' ->
  (exists q, q ∈ l /\ overlaps a q) -> exists q, q ∈ l' /\ overlaps a q.
Proof. intros Hp (q & Hq & Ho). exists q. by rewrite <- Hp. Qed.

(** X6.  The two partial checks answer [partial_match] exactly when the
    sequence ends in the start of one of the stop sequences, and [None]
    otherwise; the answer does not depend on the order of the stop list. *)
Theorem partial_checks_exact text (toks : list Z) stops (seqs : list (list Z)) :
  (check_partial_token_match (Char := Char) toks seqs
     = Some (StoppingCriteriaResult "partial_match" None) <->
   exists q, q ∈ seqs /\ overlaps toks q)
  /\
  (check_partial_token_match (Char := Char) toks seqs = None <->
   forall q, q ∈ seqs -> ~ overlaps toks q)
  /\
  (check_partial_text_match text stops
     = Some (StopStringProcessorResult "partial_match" None None) <->
   exists s, s ∈ stops /\ overlaps text s)
  /\
  (check_partial_text_match text stops = None <->
   forall s, s ∈ stops -> ~ overlaps text s)
  /\
  (forall seqs', seqs ≡ₚ seqs' ->
     check_partial_token_match (Char := Char) toks seqs'
     = check_partial_token_match toks seqs)
  /\
  (forall stops', stops ≡ₚ stops' ->
     check_partial_text_match text stops' = check_partial_text_match text stops).
Proof.
  split; [|split; [|split; [|split; [|split]]]].
  - destruct (check_partial_token_match_cases (Char := Char) toks seqs)
      as [[-> Y] | [-> N]]; [done|]. by split.
  - destruct (check_partial_token_match_cases (Char := Char) toks seqs)
      as [[-> (q & Hq & Ho)] | [-> N]].
    + split; [done|]. intros Hn. by destruct (Hn q Hq).
    + split; [|done]. intros _ q Hq Ho. apply N. by exists q.
  - destruct (check_partial_text_match_cases text stops)
      as [[-> Y] | [-> N]]; [done|]. by split.
  - destruct (check_partial_text_match_cases text stops)
      as [[-> (s & Hs & Ho)] | [-> N]].
    + split; [done|]. intros Hn. by destruct (Hn s Hs).
    + split; [|done]. intros _ s Hs Ho. apply N. by exists s.
  - intros seqs' Hp.
    destruct (check_partial_token_match_cases (Char := Char) toks seqs)
      as [[-> Y] | [-> N]];
    destruct (check_partial_token_match_cases (Char := Char) toks seqs')
      as [[-> Y'] | [-> N']]; try done.
    + destruct N'. by eapply overlap_exists_perm.
    + destruct N. eapply overlap_exists_perm; [|done]. by symmetry.
  - intros stops' Hp.
    destruct (check_partial_text_match_cases text stops)
      as [[-> Y] | [-> N]];
    destruct (check_partial_text_match_cases text stops')
      as [[-> Y'] | [-> N']]; try done.
    + destruct N'. by eapply overlap_exists_perm.
    + destruct N. eapply overlap_exists_perm; [|done]. by symmetry.
Qed.

(** X7.  [sequence_overlap] on the edges: it is false as soon as one of the
    two sequences is empty, and true whenever the first sequence ends with a
    non-empty piece the second one starts with, in particular when a
    non-empty sequence is compared with itself. *)
Theorem sequence_overlap_edges {A : Type} `{EqDecision A} (a b : list A) :
  sequence_overlap [] b = false /\
  sequence_overlap a [] = false /\
  (forall pre w post : list A, w <> [] ->
     sequence_overlap (pre ++ w) (w ++ post) = true) /\
  (a <> [] -> sequence_overlap a a = true).
Proof.
  assert (Hshare : forall pre w post : list A, w <> [] ->
             sequence_overlap (pre ++ w) (w ++ post) = true).
  { intros pre w post Hw. apply sequence_overlap_overlaps.
    exists w. split; [done|]. split; [by exists pre | by exists post]. }
  split; [done|]. split; [|split; [done|]].
  - unfold sequence_overlap. by rewrite Nat.min_0_r.
  - intros Ha. specialize (Hshare [] a [] Ha).
    by rewrite app_nil_r in Hshare.
Qed.

End Checks.

Section Processor.
Context {Char : Type} `{EqDecision Char} `{!Tokenizer (Char := Char)}.
Implicit Types (self : StopStringProcessor (Char := Char)).

Lemma process_token_with_empty (criteria : evaluator) self (t : Z) :
  stop_strings self = [] ->
  process_token_with criteria self t
  = (inr (StopStringProcessorResult "no_match" None None), self).
Proof. intros E. unfold process_token_with. by rewrite E. Qed.

Lemma feed_no_stop_strings self (stream : list Z) :
  stop_strings self = [] ->
  feed self stream
  = (replicate (length stream) (StopStringProcessorResult "no_match" None None),
     None, self).
Proof.
  intros E. induction stream as [|t rest IH]; [done|].
  cbn [feed]. unfold process_token.
  rewrite (process_token_with_empty _ _ _ E), IH. done.
Qed.

(** X2.  A processor without stop strings takes the fast path: whatever
    evaluator is in place, it is not consulted; every call returns
    [no_match] and leaves the object, its buffer included, as it was, over
    any stream of tokens. *)
Theorem no_stop_strings_never_buffers self (stream : list Z) :
  stop_strings self = [] ->
  (forall (criteria : evaluator) t,
      process_token_with criteria self t
      = (inr (StopStringProcessorResult "no_match" None None), self))
  /\
  feed self stream
  = (replicate (length stream) (StopStringProcessorResult "no_match" None None),
     None, self).
Proof.
  intros E. split.
  - intros criteria t. by apply process_token_with_empty.
  - by apply feed_no_stop_strings.
Qed.

(** One call on a processor with stop strings, by what the decoded buffer
    holds. *)
Lemma process_token_verdict self (t : Z) :
  stop_strings self <> [] ->
  let buffer := token_id_buffer self ++ [t] in
  (exists s,
      process_token self t
      = (inr (StopStringProcessorResult "full_stop" (Some s) (Some buffer)),
         set_buffer self buffer) /\
      s ∈ stop_strings self /\ occurs s (decode buffer))
  \/
  (process_token self t
   = (inr (StopStringProcessorResult "partial_match" None None),
      set_buffer self buffer) /\
   forall s, s ∈ stop_strings self -> ~ occurs s (decode buffer))
  \/
  (process_token self t
   = (inr (StopStringProcessorResult "no_match" None None),
      set_buffer self []) /\
   forall s, s ∈ stop_strings self ->
             ~ occurs s (decode buffer) /\ ~ overlaps (decode buffer) s).
Proof.
  intros Hne buffer. unfold process_token.
  rewrite (process_token_with_cases stopping_criteria self t Hne).
  fold buffer. cbv zeta.
  destruct (stopping_criteria_cases (decode buffer) buffer (stop_strings self)
              (stop_token_sequences self))
    as [(s & E & Hs & Hocc)
       | [Hno [[E Htok] | [Hntok [[E Htxt] | [E Hntxt]]]]]];
    cbv zeta in E; rewrite E; simpl.
  - left. by exists s.
  - right. by left.
  - right. by left.
  - right. right. split; [done|]. intros s Hs. split; [by apply Hno|].
    intros Ho. apply Hntxt. by exists s.
Qed.

(** X3.  With the module's own evaluator [process_token] never raises, for
    any state of the processor.  It returns one of the three statuses, never
    changes the configured stop strings or their token sequences, and fills
    [stop_string] and [stop_tokens] exactly on [full_stop]: the stop string is
    then a configured one that occurs in the decoded buffer, and
    [stop_tokens] is the buffer, ending with the token just given. *)
Theorem process_token_never_raises self (t : Z) :
  exists r self',
    process_token self t = (inr r, self') /\
    stop_strings self' = stop_strings self /\
    stop_token_sequences self' = stop_token_sequences self /\
    (status r = "full_stop" \/ status r = "partial_match" \/
     status r = "no_match") /\
    (status r = "full_stop" ->
     exists s, r = StopStringProcessorResult "full_stop" (Some s)
                     (Some (token_id_buffer self ++ [t])) /\
               s ∈ stop_strings self /\
               occurs s (decode (token_id_buffer self ++ [t])) /\
               token_id_buffer self' = token_id_buffer self ++ [t]) /\
    (status r <> "full_stop" ->
     r = StopStringProcessorResult (status r) None None).
Proof.
  destruct (stop_strings self) as [|s0 ss] eqn:Ess.
  - exists (StopStringProcessorResult "no_match" None None), self.
    unfold process_token. rewrite (process_token_with_empty _ _ _ Ess). simpl.
    split; [done|]. split; [done|]. split; [done|].
    split; [by right; right|]. by split.
  - assert (Hne : stop_strings self <> []) by by rewrite Ess.
    destruct (process_token_verdict self t Hne)
      as [(s & -> & Hs & Hocc) | [[-> _] | [-> _]]];
      eexists _, _; (split; [reflexivity|]); simpl;
      (split; [done|]); (split; [done|]).
    + split; [by left|]. split; [|done]. intros _. exists s.
      rewrite <- Ess. done.
    + split; [by right; left|]. by split.
    + split; [by right; right|]. by split.
Qed.

(** An occurrence of [s] in [T ++ X] that starts inside [T] either lies
    within [T] or leaves [T] ending in the start of [s]. *)
Lemma occurrence_from_inside {A : Type} (T X s : list A) (p : nat) :
  occurs_at s (T ++ X) p -> (p < length T)%nat -> occurs s T \/ overlaps T s.
Proof.
  intros (pre & post & E & <-) Hlt.
  apply app_eq_inv in E as [(k & -> & Ek) | (k & -> & Ek)].
  - rewrite length_app in Hlt.
    destruct k as [|x k]; [simpl in Hlt; lia|].
    apply app_eq_inv in Ek as [(k' & Es & EX) | (k' & Ek & Epost)].
    + right. exists (x :: k). split; [done|].
      split; [by exists pre | by exists k'].
    + left. exists (length pre), pre, k'. by rewrite Ek.
  - rewrite length_app in Hlt. lia.
Qed.

(** Text [C] already let go: no stop string can start inside it, whatever
    text follows. *)
Definition released (stops : list (list Char)) (C : list Char) : Prop :=
  forall s X p, s ∈ stops -> occurs_at s (C ++ X) p -> (length C <= p)%nat.

Lemma released_nil stops : released stops [].
Proof. intros s X p _ _. simpl. lia. Qed.

Lemma released_app stops (C T : list Char) :
  released stops C ->
  (forall s, s ∈ stops -> ~ occurs s T /\ ~ overlaps T s) ->
  released stops (C ++ T).
Proof.
  intros HC HT s X p Hs Hocc. rewrite <- app_assoc in Hocc.
  pose proof (HC s (T ++ X) p Hs Hocc) as Hp.
  rewrite length_app. destruct (decide (p < length C + length T)%nat) as [Hlt|]; [|lia].
  exfalso. destruct Hocc as (pre & post & E & Hl). subst p.
  assert (Hin : forall q, occurs_at s (T ++ X) q -> (q < length T)%nat -> False).
  { intros q Hq Hlt'.
    destruct (occurrence_from_inside T X s q Hq Hlt') as [Ho | Ho];
      by destruct (HT s Hs). }
  apply app_eq_inv in E as [(k & EC & Ek) | (k & Epre & Ek)].
  - rewrite EC, length_app in Hp, Hlt.
    destruct k as [|x k]; [|simpl in Hp; lia].
    simpl in Ek. apply (Hin 0%nat); [|simpl in Hlt; lia].
    exists [], post. by rewrite Ek.
  - rewrite Epre, length_app in Hlt.
    apply (Hin (length k)); [|lia]. exists k, post. by rewrite Ek.
Qed.

Lemma occurs_released stops (C T : list Char) s :
  released stops C -> s ∈ stops -> occurs s (C ++ T) -> occurs s T.
Proof.
  intros HC Hs [p Hocc].
  pose proof (HC s T p Hs Hocc) as Hp.
  destruct Hocc as (pre & post & E & Hl). subst p.
  apply app_eq_inv in E as [(k & EC & Ek) | (k & Epre & Ek)].
  - rewrite EC, length_app in Hp.
    destruct k as [|x k]; [|simpl in Hp; lia].
    simpl in Ek. exists 0%nat, [], post. by rewrite Ek.
  - exists (length k), k, post. by rewrite Ek.
Qed.

Lemma occurs_app_l (C T : list Char) s : occurs s T -> occurs s (C ++ T).
Proof.
  intros (p & pre & post & -> & _).
  exists (length (C ++ pre)), (C ++ pre), post. by rewrite <- !app_assoc.
Qed.

Section Concatenative.
(** A tokenizer that decodes token by token: the text of a sequence is the
    text of its parts, one after the other. *)
Hypothesis decode_app :
  forall a b : list Z, decode (a ++ b) = decode a ++ decode b.

Lemma feed_full_stop_general (stream : list Z) :
  forall self (C : list Char),
    stop_strings self <> [] ->
    released (stop_strings self) C ->
    forall rs e self',
      feed self stream = (rs, e, self') ->
      forall (i : nat) r,
        rs !! i = Some r ->
        (status r = "full_stop" <->
         exists s, s ∈ stop_strings self /\
                   occurs s (C ++ decode (token_id_buffer self ++
                                          take (S i) stream))).
Proof.
  induction stream as [|t rest IH]; intros self C Hne HC rs e self' Efeed i r Hi.
  { simpl in Efeed. injection Efeed as <- _ _. done. }
  cbn [feed] in Efeed.
  assert (Hfirst : forall r0 : result (Char := Char),
             (status r0 = "full_stop" <->
              exists s, s ∈ stop_strings self /\
                        occurs s (decode (token_id_buffer self ++ [t]))) ->
             (status r0 = "full_stop" <->
              exists s, s ∈ stop_strings self /\
                        occurs s (C ++ decode (token_id_buffer self ++ [t])))).
  { intros r0 ->. split; intros (s & Hs & Ho); exists s; (split; [done|]).
    - by apply occurs_app_l.
    - by eapply occurs_released. }
  destruct (process_token_verdict self t Hne)
    as [(s & Estep & Hs & Hocc) | [[Estep Hno] | [Estep Hno]]];
    rewrite Estep in Efeed;
    destruct (feed _ rest) as [[rs' e'] self''] eqn:Erest;
    injection Efeed as <- <- <-;
    destruct i as [|j]; simpl in Hi.
  - injection Hi as <-. apply Hfirst. simpl. split; [by exists s | done].
  - rewrite (IH (set_buffer self _) C Hne HC _ _ _ Erest j r Hi). simpl.
    by rewrite <- app_assoc.
  - injection Hi as <-. apply Hfirst. simpl. split; [done|].
    intros (s & Hs & Ho). by destruct (Hno s Hs).
  - rewrite (IH (set_buffer self _) C Hne HC _ _ _ Erest j r Hi). simpl.
    by rewrite <- app_assoc.
  - injection Hi as <-. apply Hfirst. simpl. split; [done|].
    intros (s & Hs & Ho). by destruct (Hno s Hs) as [[] _].
  - assert (HC' : released (stop_strings self)
                    (C ++ decode (token_id_buffer self ++ [t])))
      by by apply released_app.
    rewrite (IH (set_buffer self []) _ Hne HC' _ _ _ Erest j r Hi). simpl.
    rewrite <- !app_assoc, <- decode_app.
    by rewrite <- app_assoc.
Qed.

(** X1.  For a tokenizer that decodes token by token, detection over a
    stream is exact: the call for the [i]-th token of a fresh processor
    answers [full_stop] exactly when the text decoded from the tokens up to
    and including that one contains a configured stop string.  Emptying the
    buffer on [no_match] therefore never hides a stop string, and no
    [full_stop] is reported without one. *)
Theorem streaming_detection_exact (stops : list (list Char)) (stream : list Z) :
  exists rs self',
    feed (init stops) stream = (rs, None, self') /\
    length rs = length stream /\
    forall (i : nat) r,
      rs !! i = Some r ->
      (status r = "full_stop" <->
       exists s, s ∈ stops /\ occurs s (decode (take (S i) stream))).
Proof.
  destruct stops as [|s0 ss] eqn:Es.
  - exists (replicate (length stream)
              (StopStringProcessorResult "no_match" None None)), (init []).
    rewrite (feed_no_stop_strings (init []) stream) by done.
    split; [done|]. split; [by rewrite length_replicate|].
    intros i r [-> _]%lookup_replicate. simpl. split; [done|].
    intros (s & Hs & _). by apply elem_of_nil in Hs.
  - rewrite <- Es.
    assert (Hne : stop_strings (init stops) <> []) by by rewrite Es.
    destruct (feed_buffer (init stops) stream Hne)
      as (rs & self' & Efeed & Hlen & _).
    exists rs, self'. split; [done|]. split; [done|]. intros i r Hi.
    by rewrite (feed_full_stop_general stream (init stops) [] Hne
                  (released_nil _) _ _ _ Efeed i r Hi).
Qed.

Lemma feed_no_match_general (stream : list Z) :
  forall self (C : list Char),
    stop_strings self <> [] ->
    released (stop_strings self) C ->
    forall rs e self',
      feed self stream = (rs, e, self') ->
      forall (i : nat) r,
        rs !! i = Some r ->
        status r = "no_match" ->
        released (stop_strings self)
                 (C ++ decode (token_id_buffer self ++ take (S i) stream)).
Proof.
  induction stream as [|t rest IH]; intros self C Hne HC rs e self' Efeed i r Hi Hr.
  { simpl in Efeed. injection Efeed as <- _ _. done. }
  cbn [feed] in Efeed.
  destruct (process_token_verdict self t Hne)
    as [(s & Estep & Hs & Hocc) | [[Estep Hno] | [Estep Hno]]];
    rewrite Estep in Efeed;
    destruct (feed _ rest) as [[rs' e'] self''] eqn:Erest;
    injection Efeed as <- <- <-;
    destruct i as [|j]; simpl in Hi.
  - injection Hi as <-. discriminate Hr.
  - pose proof (IH (set_buffer self _) C Hne HC _ _ _ Erest j r Hi Hr) as G.
    simpl in G. by rewrite <- app_assoc in G.
  - injection Hi as <-. discriminate Hr.
  - pose proof (IH (set_buffer self _) C Hne HC _ _ _ Erest j r Hi Hr) as G.
    simpl in G. by rewrite <- app_assoc in G.
  - simpl. by apply released_app.
  - assert (HC' : released (stop_strings self)
                    (C ++ decode (token_id_buffer self ++ [t])))
      by by apply released_app.
    pose proof (IH (set_buffer self []) _ Hne HC' _ _ _ Erest j r Hi Hr) as G.
    simpl in G. rewrite <- !app_assoc, <- decode_app in G.
    by rewrite <- app_assoc in G.
Qed.

(** X15.  For a tokenizer that decodes token by token, letting text go on
    [no_match] is safe: when the call for the [i]-th token of a fresh
    processor answers [no_match], no configured stop string can start inside
    the text decoded so far, whatever text the stream brings afterwards. *)
Theorem no_match_text_is_safe (stops : list (list Char)) (stream : list Z)
    rs e self' (i : nat) r :
  feed (init stops) stream = (rs, e, self') ->
  rs !! i = Some r ->
  status r = "no_match" ->
  forall s later p,
    s ∈ stops ->
    occurs_at s (decode (take (S i) stream) ++ later) p ->
    (length (decode (take (S i) stream)) <= p)%nat.
Proof.
  intros Efeed Hi Hr s later p Hs.
  assert (Hne : stop_strings (init stops) <> []).
  { simpl. intros ->. by apply elem_of_nil in Hs. }
  pose proof (feed_no_match_general stream (init stops) [] Hne
                (released_nil _) _ _ _ Efeed i r Hi Hr) as G.
  simpl in G. by apply G.
Qed.

End Concatenative.
End Processor.

(** *** The statements above at sample inputs *)

Import Samples.

Lemma no_stop_strings_never_buffers_witness :
  (forall (criteria : evaluator) t,
      process_token_with criteria (init []) t
      = (inr (StopStringProcessorResult "no_match" None None), init []))
  /\
  feed (init []) [104; 105]
  = ([StopStringProcessorResult "no_match" None None;
      StopStringProcessorResult "no_match" None None],
     None, init []).
Proof.
  by apply (no_stop_strings_never_buffers (Tokenizer0 := byte_tokenizer)
              (init []) [104; 105]).
Defined.

Lemma no_match_text_is_safe_witness :
  (length (decode (take 2 [97; 120; 97; 98]%Z)) <= 2)%nat.
Proof.
  refine (no_match_text_is_safe (Tokenizer0 := byte_tokenizer) _
            [chars "ab"] [97; 120; 97; 98] _ _ _ 1%nat _ eq_refl eq_refl eq_refl
            (chars "ab") (chars "ab") 2%nat _ _).
  - intros a b. apply map_app.
  - by left.
  - by exists (chars "ax"), [].
Defined.

Lemma streaming_detection_exact_witness :
  exists rs self',
    feed (init [chars "ab"]) [120; 97; 97; 98] = (rs, None, self') /\
    length rs = 4%nat /\
    forall (i : nat) r,
      rs !! i = Some r ->
      (status r = "full_stop" <->
       exists s, s ∈ [chars "ab"] /\
                 occurs s (decode (take (S i) [120; 97; 97; 98]))).
Proof.
  apply (streaming_detection_exact (Tokenizer0 := byte_tokenizer)).
  intros a b. apply map_app.
Defined.

End StopStringsMore.

(** ** Further properties of the generation loop *)

Module GenerateMore.
Import StopStrings Generate GenerateViews GenerateFacts.

Section Loop.
Context {Char Float Logprobs GenerationStopCondition : Type}.
Context `{!ModelKit (Char := Char) (Float := Float) (Logprobs := Logprobs)}.
Context `{!StopProcessorKit (Char := Char)
            (GenerationStopCondition := GenerationStopCondition)}.

Local Abbreviation Response :=
  (GenerationResponse (Char := Char) (Logprobs := Logprobs)).
Local Abbreviation Result :=
  (GenerationResult (Char := Char) (Float := Float)
                    (GenerationStopCondition := GenerationStopCondition)).
Local Abbreviation Event :=
  (event (Char := Char) (Float := Float) (Logprobs := Logprobs)
         (GenerationStopCondition := GenerationStopCondition)).
Local Abbreviation State := (LoopState (Char := Char) (Float := Float)).

(** The verdict of the stop processor for the token of [g] in state [st]. *)
Local Abbreviation verdict st g :=
  (fst (stop_process_token (stop_processor st) (token g))).

(** The three ways an iteration ends. *)
Lemma loop_body_eq (top_k : Z) (st : State) (g : Response) :
  loop_body top_k st g =
    if ends_run (verdict st g) then (accumulated top_k st g, None, Break)
    else if String.eqb (result_status (verdict st g)) "partial_match"
    then (accumulated top_k st g, None, Next)
    else match text_buffer st ++ segment g with
         | [] => (accumulated top_k st g, None, Next)
         | _ :: _ => (flushed (accumulated top_k st g),
                      Some (emitted (accumulated top_k st g)), Next)
         end.
Proof.
  unfold loop_body, accumulated, ends_run, emitted, flushed, token_record.
  destruct (stop_process_token (stop_processor st) (token g)) as [v sp].
  cbn [fst snd]. destruct (top_k =? 0); simpl;
    destruct (_ && _); try done;
    destruct (String.eqb _ _); try done;
    by destruct (text_buffer st ++ segment g).
Qed.

(** Induction over a run of the loop, by how each iteration ends. *)
Lemma generation_loop_run_ind (top_k : Z)
    (P : State -> list Response -> list Event -> State -> Prop) :
  (forall st, P st [] [NextToken None] st) ->
  (forall st g rest,
      ends_run (verdict st g) = true ->
      P st (g :: rest) [NextToken (Some g)] (accumulated top_k st g)) ->
  (forall st g rest evs st',
      ends_run (verdict st g) = false ->
      result_status (verdict st g) = "partial_match" \/
        text_buffer st ++ segment g = [] ->
      generation_loop top_k (accumulated top_k st g) rest = (evs, st') ->
      P (accumulated top_k st g) rest evs st' ->
      P st (g :: rest) (NextToken (Some g) :: evs) st') ->
  (forall st g rest evs st',
      ends_run (verdict st g) = false ->
      result_status (verdict st g) <> "partial_match" ->
      text_buffer st ++ segment g <> [] ->
      generation_loop top_k (flushed (accumulated top_k st g)) rest = (evs, st') ->
      P (flushed (accumulated top_k st g)) rest evs st' ->
      P st (g :: rest)
        (NextToken (Some g) :: Yield (emitted (accumulated top_k st g)) :: evs)
        st') ->
  forall st source evs st',
    generation_loop top_k st source = (evs, st') -> P st source evs st'.
Proof.
  intros Hnil Hbreak Hhold Hflush st source. revert st.
  induction source as [|g rest IH]; intros st evs st' E.
  - simpl in E. injection E as <- <-. apply Hnil.
  - cbn [generation_loop] in E. rewrite loop_body_eq in E.
    destruct (ends_run (verdict st g)) eqn:Eend.
    + injection E as <- <-. by apply Hbreak.
    + destruct (String.eqb (result_status (verdict st g)) "partial_match") eqn:Ep.
      * apply String.eqb_eq in Ep.
        destruct (generation_loop top_k (accumulated top_k st g) rest)
          as [evs1 st1] eqn:E1.
        injection E as <- <-. apply Hhold; auto.
      * apply String.eqb_neq in Ep.
        destruct (text_buffer st ++ segment g) as [|c txt] eqn:Et.
        -- destruct (generation_loop top_k (accumulated top_k st g) rest)
             as [evs1 st1] eqn:E1.
           injection E as <- <-. apply Hhold; auto.
        -- destruct (generation_loop top_k (flushed (accumulated top_k st g)) rest)
             as [evs1 st1] eqn:E1.
           injection E as <- <-. apply Hflush; auto. by rewrite Et.
Qed.

Lemma yielded_next (o : option Response) (evs : list Event) :
  yielded (NextToken o :: evs) = yielded evs.
Proof. done. Qed.

Lemma yielded_yield (y : Result) (evs : list Event) :
  yielded (Yield y :: evs) = y :: yielded evs.
Proof. done. Qed.

Lemma consumed_next (g : Response) (evs : list Event) :
  consumed (NextToken (Some g) :: evs) = g :: consumed evs.
Proof. done. Qed.

Lemma consumed_yield (y : Result) (evs : list Event) :
  consumed (Yield y :: evs) = consumed evs.
Proof. done. Qed.

Lemma consumed_app (evs evs' : list Event) :
  consumed (evs ++ evs') = consumed evs ++ consumed evs'.
Proof. unfold consumed. apply omap_app. Qed.

Lemma requests_next (o : option Response) (evs : list Event) :
  requests (NextToken o :: evs) = o :: requests evs.
Proof. done. Qed.

Lemma requests_yield (y : Result) (evs : list Event) :
  requests (Yield y :: evs) = requests evs.
Proof. done. Qed.

Ltac run_simpl :=
  rewrite ?yielded_next, ?yielded_yield, ?consumed_next, ?consumed_yield,
    ?requests_next, ?requests_yield;
  cbn [accumulated flushed emitted token_buffer top_logprobs_buffer
       text_buffer stop_processor stop_processor_result
       text tokens top_logprobs fmap list_fmap concat app].

(** Tokens: what was yielded plus what is still buffered is what was there
    plus one record per response taken. *)
Lemma loop_tokens (top_k : Z) (st : State) source evs st' :
  generation_loop top_k st source = (evs, st') ->
  concat (tokens <$> yielded evs) ++ token_buffer st'
  = token_buffer st ++ (token_record <$> consumed evs).
Proof.
  revert st source evs st'. refine (generation_loop_run_ind top_k _ _ _ _ _).
  - intros st. by rewrite app_nil_r.
  - intros st g rest _. done.
  - intros st g rest evs st' _ _ _ IH. run_simpl. rewrite IH. run_simpl.
    by rewrite <- app_assoc.
  - intros st g rest evs st' _ _ _ _ IH. run_simpl.
    rewrite <- !app_assoc. rewrite IH. done.
Qed.

Lemma loop_text (top_k : Z) (st : State) source evs st' :
  generation_loop top_k st source = (evs, st') ->
  concat (text <$> yielded evs) ++ text_buffer st'
  = text_buffer st ++ concat (segment <$> consumed evs).
Proof.
  revert st source evs st'. refine (generation_loop_run_ind top_k _ _ _ _ _).
  - intros st. by rewrite app_nil_r.
  - intros st g rest _. run_simpl. by rewrite app_nil_r.
  - intros st g rest evs st' _ _ _ IH. run_simpl. rewrite IH. run_simpl.
    by rewrite <- app_assoc.
  - intros st g rest evs st' _ _ _ _ IH. run_simpl.
    rewrite <- !app_assoc. rewrite IH. done.
Qed.

Lemma summaries_cons top_k g gs :
  summaries top_k (g :: gs) = summaries top_k [g] ++ summaries top_k gs.
Proof. unfold summaries. by destruct (top_k =? 0). Qed.

Lemma loop_top_logprobs (top_k : Z) (st : State) source evs st' :
  generation_loop top_k st source = (evs, st') ->
  concat (top_logprobs <$> yielded evs) ++ top_logprobs_buffer st'
  = top_logprobs_buffer st ++ summaries top_k (consumed evs).
Proof.
  revert st source evs st'. refine (generation_loop_run_ind top_k _ _ _ _ _).
  - intros st. unfold summaries. simpl. destruct (top_k =? 0); by rewrite app_nil_r.
  - intros st g rest _. run_simpl. unfold summaries. simpl.
    destruct (top_k =? 0); by rewrite ?app_nil_r.
  - intros st g rest evs st' _ _ _ IH. run_simpl. rewrite IH. run_simpl.
    rewrite (summaries_cons top_k g). unfold summaries at 2. simpl.
    destruct (top_k =? 0); by rewrite <- ?app_assoc.
  - intros st g rest evs st' _ _ _ _ IH. run_simpl.
    rewrite <- !app_assoc. rewrite IH. simpl.
    rewrite (summaries_cons top_k g). unfold summaries at 2. simpl.
    destruct (top_k =? 0); by rewrite <- ?app_assoc, ?app_nil_r.
Qed.

Lemma loop_aligned (top_k : Z) (st : State) source evs st' :
  generation_loop top_k st source = (evs, st') ->
  aligned top_k (length (top_logprobs_buffer st)) (length (token_buffer st)) ->
  Forall (fun y => aligned top_k (length (top_logprobs y)) (length (tokens y)))
         (yielded evs) /\
  aligned top_k (length (top_logprobs_buffer st')) (length (token_buffer st')).
Proof.
  revert st source evs st'. refine (generation_loop_run_ind top_k _ _ _ _ _).
  - intros st Ha. split; [constructor | done].
  - intros st g rest _ Ha. split; [constructor|]. revert Ha. unfold aligned.
    run_simpl. destruct (top_k =? 0); rewrite ?length_app; simpl; lia.
  - intros st g rest evs st' _ _ _ IH Ha. run_simpl. apply IH.
    revert Ha. unfold aligned. run_simpl.
    destruct (top_k =? 0); rewrite ?length_app; simpl; lia.
  - intros st g rest evs st' _ _ _ _ IH Ha. run_simpl. split.
    + constructor.
      * revert Ha. unfold aligned. run_simpl.
        destruct (top_k =? 0); rewrite ?length_app; simpl; lia.
      * apply IH. unfold aligned. run_simpl. by destruct (top_k =? 0).
    + apply IH. unfold aligned. run_simpl. by destruct (top_k =? 0).
Qed.

Lemma loop_yields_nonempty (top_k : Z) (st : State) source evs st' :
  generation_loop top_k st source = (evs, st') ->
  Forall (fun y : Result => text y <> [] /\ tokens y <> [] /\
                            stop_condition y = None) (yielded evs).
Proof.
  revert st source evs st'. refine (generation_loop_run_ind top_k _ _ _ _ _).
  - constructor.
  - constructor.
  - intros st g rest evs st' _ _ _ IH. by run_simpl.
  - intros st g rest evs st' _ _ Ht _ IH. run_simpl. constructor; [|done].
    split; [done|]. split; [|done]. by intros [_ Hn]%app_eq_nil.
Qed.

Lemma stop_processor_run_cons sp r (g : Response) gs :
  stop_processor_run sp r (g :: gs)
  = stop_processor_run (snd (stop_process_token sp (token g)))
      (Some (fst (stop_process_token sp (token g)))) gs.
Proof.
  unfold stop_processor_run. cbn [foldl fst].
  by destruct (stop_process_token sp (token g)).
Qed.

Lemma loop_stop_processor (top_k : Z) (st : State) source evs st' :
  generation_loop top_k st source = (evs, st') ->
  (stop_processor st', stop_processor_result st')
  = stop_processor_run (stop_processor st) (stop_processor_result st)
      (consumed evs).
Proof.
  revert st source evs st'. refine (generation_loop_run_ind top_k _ _ _ _ _).
  - done.
  - intros st g rest _. run_simpl. by rewrite stop_processor_run_cons.
  - intros st g rest evs st' _ _ _ IH. run_simpl.
    by rewrite stop_processor_run_cons, IH.
  - intros st g rest evs st' _ _ _ _ IH. run_simpl.
    by rewrite stop_processor_run_cons, IH.
Qed.

Lemma taken_cons sp (g : Response) rest :
  taken sp (g :: rest)
  = if ends_run (fst (stop_process_token sp (token g))) then [g]
    else g :: taken (snd (stop_process_token sp (token g))) rest.
Proof. cbn [taken]. by destruct (stop_process_token sp (token g)). Qed.

Lemma stopped_cons sp (g : Response) rest :
  stopped sp (g :: rest)
  = if ends_run (fst (stop_process_token sp (token g))) then true
    else stopped (snd (stop_process_token sp (token g))) rest.
Proof. cbn [stopped]. by destruct (stop_process_token sp (token g)). Qed.

Lemma loop_requests (top_k : Z) (st : State) source evs st' :
  generation_loop top_k st source = (evs, st') ->
  consumed evs = taken (stop_processor st) source /\
  requests evs
  = (Some <$> taken (stop_processor st) source)
    ++ (if stopped (stop_processor st) source then [] else [None]).
Proof.
  revert st source evs st'. refine (generation_loop_run_ind top_k _ _ _ _ _).
  - done.
  - intros st g rest E. rewrite taken_cons, stopped_cons, E. done.
  - intros st g rest evs st' E _ _ [IH1 IH2]. run_simpl.
    rewrite taken_cons, stopped_cons, E, IH1, IH2. done.
  - intros st g rest evs st' E _ _ _ [IH1 IH2]. run_simpl.
    rewrite taken_cons, stopped_cons, E, IH1, IH2. done.
Qed.

Lemma taken_prefix sp (src : list Response) :
  taken sp src `prefix_of` src /\
  (stopped sp src = false -> taken sp src = src) /\
  (stopped sp src = true ->
   exists pre g, taken sp src = pre ++ [g] /\
     ends_run (fst (stop_process_token
                      (fst (stop_processor_run sp None pre)) (token g))) = true).
Proof.
  revert sp. induction src as [|g rest IH]; intros sp.
  - split; [done|]. split; [done|]. done.
  - rewrite taken_cons, stopped_cons.
    destruct (ends_run (fst (stop_process_token sp (token g)))) eqn:E.
    + split; [by exists rest|]. split; [done|]. intros _. by exists [], g.
    + destruct (IH (snd (stop_process_token sp (token g)))) as (Hp & Hall & Hstop).
      split; [by apply prefix_cons|]. split.
      * intros Hs. by rewrite Hall.
      * intros Hs. destruct (Hstop Hs) as (pre & g' & -> & Hend).
        exists (g :: pre), g'. split; [done|].
        rewrite stop_processor_run_cons.
        revert Hend. unfold stop_processor_run.
        generalize (snd (stop_process_token sp (token g))).
        intros sp1 Hend.
        assert (Hfst : forall (l : list Response) a b,
                   fst (foldl (fun acc g0 =>
                                 let '(v, sp') :=
                                   stop_process_token (fst acc) (token g0) in
                                 (sp', Some v)) (sp1, a) l)
                   = fst (foldl (fun acc g0 =>
                                   let '(v, sp') :=
                                     stop_process_token (fst acc) (token g0) in
                                   (sp', Some v)) (sp1, b) l)).
        { intros l. generalize sp1. induction l as [|x l IHl]; intros sp2 a b; [done|].
          cbn [foldl fst]. destruct (stop_process_token sp2 (token x)).
          apply IHl. }
        by rewrite (Hfst pre _ None).
Qed.

(** A run that raises nothing is the loop over the token source followed
    by the final result. *)
Lemma create_generator_run args :
  raised (create_generator args) = None ->
  exists evs st,
    generation_loop (default 0 (arg_top_logprobs args)) (initial_state args)
                    (stream_generate (arg_max_tokens args)) = (evs, st) /\
    events (create_generator args) = evs ++ [Yield (final_result st)].
Proof.
  unfold create_generator. case_bool_decide; [discriminate|]. intros _.
  destruct (generation_loop _ _ _) as [evs st]. exists evs, st.
  split; [done|]. unfold final_result.
  by destruct (finalize _ _ _).
Qed.

(** X8.  What an iteration does on a [full_stop].  When the stop reason is
    not the end-of-sequence token the loop is left at once: nothing is
    yielded and the buffers keep the token, its summary and its text for the
    final result.  When the stop reason is ["eos_token"], or the status is
    any string other than [full_stop] and [partial_match], the iteration
    goes on as for [no_match]: it flushes a result if there is text, and
    otherwise keeps accumulating. *)
Theorem loop_body_full_stop (top_k : Z) (st : State) (g : Response) :
  let flush_or_hold :=
    if bool_decide (text_buffer st ++ segment g = [])
    then (accumulated top_k st g, None, Next)
    else (flushed (accumulated top_k st g),
          Some (emitted (accumulated top_k st g)), Next) in
  (result_status (verdict st g) = "full_stop" ->
   stop_reason (verdict st g) <> Some "eos_token" ->
   loop_body top_k st g = (accumulated top_k st g, None, Break))
  /\
  (result_status (verdict st g) = "full_stop" ->
   stop_reason (verdict st g) = Some "eos_token" ->
   loop_body top_k st g = flush_or_hold)
  /\
  (result_status (verdict st g) <> "full_stop" ->
   result_status (verdict st g) <> "partial_match" ->
   loop_body top_k st g = flush_or_hold).
Proof.
  intros flush_or_hold. subst flush_or_hold. rewrite loop_body_eq.
  unfold ends_run, not_eos_token.
  split; [|split].
  - intros -> Hr. simpl. destruct (stop_reason (verdict st g)) as [r|]; [|done].
    destruct (String.eqb r "eos_token") eqn:E; [|done].
    apply String.eqb_eq in E. congruence.
  - intros -> ->. simpl. by destruct (text_buffer st ++ segment g).
  - intros Hf%String.eqb_neq Hp%String.eqb_neq. rewrite Hf, Hp. simpl.
    by destruct (text_buffer st ++ segment g).
Qed.

(** X9.  In a run that raises nothing, every response taken from the token
    source is reported exactly once: the token lists of the yielded results,
    one after the other, are the records of the responses taken, in order
    (the tokens of a stop string included, in the final result). *)
Theorem every_token_reported_once args :
  raised (create_generator args) = None ->
  concat (tokens <$> yielded (events (create_generator args)))
  = token_record <$> consumed (events (create_generator args)).
Proof.
  intros (evs & st & Eloop & ->)%create_generator_run.
  rewrite yielded_app, consumed_app, !fmap_app, concat_app. simpl.
  rewrite !app_nil_r. by rewrite (loop_tokens _ _ _ _ _ Eloop).
Qed.

(** X10.  No decoded text is lost before [finalize]: the texts of the
    results yielded before the last one, followed by the text handed to
    [finalize], are the decoded segments of the responses taken, in order.
    [finalize] is called on the stop processor as it is after those
    responses, with the result of its last call ([None] when no response
    was taken), and the last result carries what [finalize] returns. *)
Theorem text_reaches_finalize args :
  raised (create_generator args) = None ->
  exists before final sp txt r,
    yielded (events (create_generator args)) = before ++ [final] /\
    concat (text <$> before) ++ txt
    = concat (segment <$> consumed (events (create_generator args))) /\
    (sp, r) = stop_processor_run
                (new_stop_processor
                   (map tokenize (default [] (arg_stop_strings args))))
                None (consumed (events (create_generator args))) /\
    text final = fst (finalize sp txt r) /\
    stop_condition final = snd (finalize sp txt r).
Proof.
  intros (evs & st & Eloop & ->)%create_generator_run.
  exists (yielded evs), (final_result st), (stop_processor st),
    (text_buffer st), (stop_processor_result st).
  rewrite yielded_app, consumed_app. simpl. rewrite app_nil_r.
  split; [done|]. split; [by rewrite (loop_text _ _ _ _ _ Eloop)|].
  split; [by rewrite (loop_stop_processor _ _ _ _ _ Eloop)|]. done.
Qed.

(** X11.  Top-logprobs follow the tokens.  In a run that raises nothing,
    with [top_logprobs] zero or absent every result has an empty
    [top_logprobs] list; otherwise (negative counts included, which the check
    against the cap lets through) every result has one summary per token,
    and the summaries are those of the responses taken, in order. *)
Theorem top_logprobs_follow_tokens args :
  raised (create_generator args) = None ->
  concat (top_logprobs <$> yielded (events (create_generator args)))
  = summaries (default 0 (arg_top_logprobs args))
              (consumed (events (create_generator args)))
  /\
  Forall (fun y => aligned (default 0 (arg_top_logprobs args))
                           (length (top_logprobs y)) (length (tokens y)))
         (yielded (events (create_generator args))).
Proof.
  intros (evs & st & Eloop & ->)%create_generator_run.
  rewrite yielded_app, consumed_app, !fmap_app, concat_app. simpl.
  rewrite !app_nil_r. split.
  - by rewrite (loop_top_logprobs _ _ _ _ _ Eloop).
  - destruct (loop_aligned _ _ _ _ _ Eloop) as [Hall Hlast].
    + unfold aligned. simpl. by destruct (_ =? 0).
    + apply Forall_app. split; [done|]. by constructor.
Qed.

(** X12.  Only the last result of a run can be empty: every result yielded
    before it has non-empty text and at least one token. *)
Theorem intermediate_results_nonempty args before final :
  raised (create_generator args) = None ->
  yielded (events (create_generator args)) = before ++ [final] ->
  Forall (fun y : Result => text y <> [] /\ tokens y <> []) before.
Proof.
  intros (evs & st & Eloop & ->)%create_generator_run.
  rewrite yielded_app. simpl. intros [<- _]%app_inj_tail.
  eapply Forall_impl; [by eapply loop_yields_nonempty|].
  simpl. intros y (? & ? & _). done.
Qed.

(** X13.  The token source is read up to the first response whose verdict
    is a full stop other than the end-of-sequence token, and no further: the
    responses taken are a prefix of what the source offers; when no verdict
    ends the run they are all of it and the loop then sees the source
    exhausted; otherwise the last one taken is the one that ended the run
    and the source is not asked again. *)
Theorem source_read_until_stop args :
  raised (create_generator args) = None ->
  let sp0 := new_stop_processor
               (map tokenize (default [] (arg_stop_strings args))) in
  let src := stream_generate (arg_max_tokens args) in
  consumed (events (create_generator args)) = taken sp0 src /\
  requests (events (create_generator args))
  = (Some <$> taken sp0 src) ++ (if stopped sp0 src then [] else [None]) /\
  taken sp0 src `prefix_of` src /\
  (stopped sp0 src = false -> taken sp0 src = src) /\
  (stopped sp0 src = true ->
   exists pre g,
     taken sp0 src = pre ++ [g] /\
     ends_run (fst (stop_process_token
                      (fst (stop_processor_run sp0 None pre)) (token g)))
     = true).
Proof.
  intros (evs & st & Eloop & ->)%create_generator_run sp0 src.
  destruct (loop_requests _ _ _ _ _ Eloop) as [Hc Hr].
  rewrite consumed_app, requests_app, Hc, Hr. simpl. rewrite !app_nil_r.
  split; [done|]. split; [done|]. apply taken_prefix.
Qed.

(** X14.  When the token source offers nothing (a token budget of zero, for
    one), a run within the cap yields exactly one result: no tokens, no
    top-logprobs, and the text and stop condition [finalize] returns for the
    empty text and no stop-processor result. *)
Theorem empty_source_single_result args :
  default 0 (arg_top_logprobs args) <= MAX_TOP_LOGPROBS ->
  stream_generate (arg_max_tokens args) = [] ->
  let sp0 := new_stop_processor
               (map tokenize (default [] (arg_stop_strings args))) in
  create_generator args
  = {| events :=
         [NextToken None;
          Yield {| text := fst (finalize sp0 [] None);
                   tokens := [];
                   top_logprobs := [];
                   stop_condition := snd (finalize sp0 [] None) |}];
       raised := None |}.
Proof.
  intros Hcap Hsrc sp0. unfold create_generator.
  rewrite bool_decide_eq_false_2 by lia. rewrite Hsrc. simpl.
  fold sp0. by destruct (finalize sp0 [] None).
Qed.

End Loop.

(** *** The statements above at sample inputs *)

Import Samples.

Lemma every_token_reported_once_witness :
  concat (tokens <$> yielded (events (create_generator stop_on_stop)))
  = token_record <$> consumed (events (create_generator stop_on_stop)).
Proof. by apply every_token_reported_once. Defined.

Lemma text_reaches_finalize_witness :
  exists before final sp txt r,
    yielded (events (create_generator stop_on_stop)) = before ++ [final] /\
    concat (text <$> before) ++ txt
    = concat (segment <$> consumed (events (create_generator stop_on_stop))) /\
    (sp, r) = stop_processor_run
                (new_stop_processor
                   (map tokenize (default [] (arg_stop_strings stop_on_stop))))
                None (consumed (events (create_generator stop_on_stop))) /\
    text final = fst (finalize sp txt r) /\
    stop_condition final = snd (finalize sp txt r).
Proof. by apply text_reaches_finalize. Defined.

Lemma top_logprobs_follow_tokens_witness :
  concat (top_logprobs <$> yielded (events (create_generator stop_on_stop)))
  = summaries 0 (consumed (events (create_generator stop_on_stop)))
  /\
  Forall (fun y => aligned 0 (length (top_logprobs y)) (length (tokens y)))
         (yielded (events (create_generator stop_on_stop))).
Proof. by apply (top_logprobs_follow_tokens stop_on_stop). Defined.

Lemma intermediate_results_nonempty_witness :
  Forall (fun y => text y <> [] /\ tokens y <> [])
         (take 3 (yielded (events (create_generator stop_on_stop)))).
Proof.
  by apply (intermediate_results_nonempty stop_on_stop _
              {| text := chars "stop";
                 tokens := token_record <$> spelled "stop";
                 top_logprobs := [];
                 stop_condition := Some "stop_string" |}).
Defined.

Lemma source_read_until_stop_witness :
  consumed (events (create_generator stop_on_stop)) = spelled "say stop" /\
  requests (events (create_generator stop_on_stop))
  = Some <$> spelled "say stop".
Proof.
  destruct (source_read_until_stop stop_on_stop) as (Hc & Hr & _); [done|].
  split; [exact Hc | exact Hr].
Defined.

Lemma empty_source_single_result_witness :
  create_generator zero_budget
  = {| events :=
         [NextToken None;
          Yield {| text := []; tokens := []; top_logprobs := [];
                   stop_condition := Some "end_of_stream" |}];
       raised := None |}.
Proof.
  refine (empty_source_single_result zero_budget _ _);
    [unfold MAX_TOP_LOGPROBS; simpl; lia | reflexivity].
Defined.

End GenerateMore.
